(** * jwt-pizza-service: the telemetry pipeline (src/logger.js, src/metrics.js)

    A shallow embedding of the log pipeline (sanitizer, buffer, flush) and of
    the metric aggregator and exporter, followed by the properties the
    specification states about them.

    Conventions of the model:
    - a JavaScript number is an IEEE binary64 value ([float]); the counters
      that the code only ever bumps with [++] or [+=] of an integer are kept
      as [Z] (the doubles are exact on integers below 2^53);
    - strings are [string]s of ASCII characters;
    - an object is an association list in insertion order;
    - code after an [await] is a separate step of the event loop: the state
      between the two steps is visible to every other event. *)

From Stdlib Require Import ZArith Floats DecimalString.
From stdpp Require Import base option list strings pretty gmap.

Set Warnings "-register-all,-clear-no-such-hyp".
Local Open Scope Z_scope.

(** ** JSON data *)

Module Json.

Inductive json : Type :=
| JNull
| JBool (b : bool)
| JNum (x : float)
| JStr (s : string)
| JArr (xs : list json)
| JObj (fields : list (string * json)).

(** Truthiness of a value, as [!data] and [if (x)] test it. *)
Definition number_truthy (x : float) : bool :=
  negb (PrimFloat.is_zero x || PrimFloat.is_nan x).

Definition string_truthy (s : string) : bool :=
  match s with EmptyString => false | String _ _ => true end.

Definition truthy (v : json) : bool :=
  match v with
  | JNull => false
  | JBool b => b
  | JNum x => number_truthy x
  | JStr s => string_truthy s
  | JArr _ | JObj _ => true
  end.

(** [typeof v === 'object' && v !== null] *)
Definition is_object (v : json) : bool :=
  match v with JArr _ | JObj _ => true | _ => false end.

(** [JSON.parse(JSON.stringify(v))] on plain data: the structure is copied;
    a number that JSON cannot write (NaN, an infinity) comes back as [null]
    and a negative zero as [0]. *)
Definition clone_number (x : float) : json :=
  if PrimFloat.is_nan x || PrimFloat.is_infinity x then JNull
  else if PrimFloat.is_zero x then JNum PrimFloat.zero
  else JNum x.

Fixpoint clone (v : json) : json :=
  match v with
  | JNum x => clone_number x
  | JArr xs => JArr (List.map clone xs)
  | JObj fields =>
      JObj ((fix members (l : list (string * json)) : list (string * json) :=
               match l with
               | [] => []
               | (k, x) :: rest => (k, clone x) :: members rest
               end) fields)
  | _ => v
  end.

(** The decimal key of an array index, as [for (key in array)] yields it. *)
Definition index_key (i : nat) : string :=
  NilEmpty.string_of_uint (Nat.to_uint i).

(** Property read [obj[key]]: [None] is [undefined]. *)
Fixpoint assoc (k : string) (fields : list (string * json)) : option json :=
  match fields with
  | [] => None
  | (k', x) :: rest => if String.eqb k k' then Some x else assoc k rest
  end.

Definition prop (k : string) (v : json) : option json :=
  match v with
  | JObj fields => assoc k fields
  | _ => None
  end.

(** Property write [obj[key] = x]: an existing key keeps its place. *)
Fixpoint obj_set (k : string) (x : json) (fields : list (string * json))
  : list (string * json) :=
  match fields with
  | [] => [(k, x)]
  | (k', y) :: rest =>
      if String.eqb k k' then (k', x) :: rest else (k', y) :: obj_set k x rest
  end.

Definition obj_assign (target props : list (string * json))
  : list (string * json) :=
  fold_left (fun o kv => obj_set (fst kv) (snd kv) o) props target.

Fixpoint indexed {A} (i : nat) (l : list A) : list (string * A) :=
  match l with
  | [] => []
  | x :: rest => (index_key i, x) :: indexed (S i) rest
  end.

Fixpoint chars (s : string) : list json :=
  match s with
  | EmptyString => []
  | String c rest => JStr (String c EmptyString) :: chars rest
  end.

(** The own enumerable properties an object spread [...v] copies. *)
Definition own_props (v : json) : list (string * json) :=
  match v with
  | JObj fields => fields
  | JArr xs => indexed 0 xs
  | JStr s => indexed 0 (chars s)
  | _ => []
  end.

(** Addressing a value inside a document: a step goes through a key of a
    mapping or an index of an array. *)
Inductive selector : Type :=
| Key (k : string)
| Index (i : nat).

Definition select (s : selector) (v : json) : option json :=
  match s, v with
  | Key k, JObj fields => assoc k fields
  | Index i, JArr xs => nth_error xs i
  | _, _ => None
  end.

Fixpoint at_path (p : list selector) (v : json) : option json :=
  match p with
  | [] => Some v
  | s :: rest =>
      match select s v with
      | Some x => at_path rest x
      | None => None
      end
  end.

End Json.
Export Json.

(** ** Configuration

    [config.js] is not among the sources at hand: the configuration object
    is a parameter of everything that reads it. *)

Module ConfigJs.
Record LoggingConfig : Type := {
  logging_url : string;
  logging_source : option string;
  logging_userId : string;
  logging_apiKey : string
}.

Record MetricsConfig : Type := {
  metrics_url : string;
  metrics_apiKey : string;
  metrics_source : string
}.

Record Config : Type := {
  logging : option LoggingConfig;
  metrics : option MetricsConfig
}.

(** [config.logging && config.logging.url] *)
Definition logging_enabled (config : Config) : option LoggingConfig :=
  match logging config with
  | Some lc => if string_truthy (logging_url lc) then Some lc else None
  | None => None
  end.

(** [config.metrics && config.metrics.url && config.metrics.apiKey] *)
Definition metrics_enabled (config : Config) : option MetricsConfig :=
  match metrics config with
  | Some mc =>
      if string_truthy (metrics_url mc) && string_truthy (metrics_apiKey mc)
      then Some mc else None
  | None => None
  end.

End ConfigJs.
Export ConfigJs.

(** ** The log pipeline (src/logger.js) *)

Module LoggerJs.

(** *** Sanitizer *)

Definition REDACTED : string := "***REDACTED***".

Definition sensitiveFields : list string :=
  ["password"; "token"; "auth"; "authorization"; "jwt"; "secret"].

Definition lower_char (c : Ascii.ascii) : Ascii.ascii :=
  let n := Ascii.N_of_ascii c in
  if ((65 <=? n) && (n <=? 90))%N then Ascii.ascii_of_N (n + 32) else c.

Fixpoint toLowerCase (s : string) : string :=
  match s with
  | EmptyString => EmptyString
  | String c rest => String (lower_char c) (toLowerCase rest)
  end.

(** [s.includes(sub)] *)
Fixpoint includes (s sub : string) : bool :=
  String.prefix sub s
  || match s with
     | EmptyString => false
     | String _ rest => includes rest sub
     end.

Definition is_sensitive (key : string) : bool :=
  existsb (fun field => includes (toLowerCase key) field) sensitiveFields.

(** The walk of [recursiveSanitize]: [for (key in obj)] visits the keys of a
    mapping and the indices of an array alike ([typeof] of both is
    ['object']); the in-place writes become the rebuilt value. *)
Fixpoint recursiveSanitize (obj : json) : json :=
  match obj with
  | JObj fields =>
      JObj ((fix members (l : list (string * json)) : list (string * json) :=
               match l with
               | [] => []
               | (key, x) :: rest =>
                   (key, if is_sensitive key then JStr REDACTED
                         else recursiveSanitize x) :: members rest
               end) fields)
  | JArr xs =>
      JArr ((fix elements (i : nat) (l : list json) : list json :=
               match l with
               | [] => []
               | x :: rest =>
                   (if is_sensitive (index_key i) then JStr REDACTED
                    else recursiveSanitize x) :: elements (S i) rest
               end) 0%nat xs)
  | _ => obj
  end.

Definition sanitize (data : json) : json :=
  if negb (truthy data) then data
  else recursiveSanitize (clone data).

(** Strings of decimal digits, which is what the keys of an array are. *)
Definition is_digit (c : Ascii.ascii) : bool :=
  let n := Ascii.N_of_ascii c in ((48 <=? n) && (n <=? 57))%N.

Fixpoint all_digits (s : string) : bool :=
  match s with
  | EmptyString => true
  | String c rest => is_digit c && all_digits rest
  end.

(** A value JSON writes and reads back unchanged. *)
Definition json_exact (v : json) : Prop := clone v = v.

(** The walk as it would be if it went into mappings only: every array
    would come back as it went in. *)
Definition arrays_left_alone : Prop :=
  forall xs, recursiveSanitize (JArr xs) = JArr xs.

(** A path none of whose keys is sensitive. *)
Definition plain_selector (s : selector) : bool :=
  match s with
  | Key k => negb (is_sensitive k)
  | Index _ => true
  end.

Definition is_marker (v : json) : bool :=
  match v with
  | JStr s => String.eqb s REDACTED
  | _ => false
  end.

(** No sensitive key, at any depth, holds anything but the marker. *)
Fixpoint fully_redacted (v : json) : bool :=
  match v with
  | JObj fields =>
      (fix members (l : list (string * json)) : bool :=
         match l with
         | [] => true
         | (key, x) :: rest =>
             (if is_sensitive key then is_marker x else fully_redacted x)
             && members rest
         end) fields
  | JArr xs =>
      (fix elements (l : list json) : bool :=
         match l with
         | [] => true
         | x :: rest => fully_redacted x && elements rest
         end) xs
  | _ => true
  end.

(** *** Log records *)

(** [{ level, type, message, ...sanitizedDetails, timestamp }]; an omitted
    [details] argument defaults to the empty object. *)
Definition logEntry (level type message : json) (details : option json)
    (timestamp : string) : json :=
  let sanitizedDetails := sanitize (default (JObj []) details) in
  JObj (obj_assign
          (obj_assign [("level", level); ("type", type); ("message", message)]
                      (own_props sanitizedDetails))
          [("timestamp", JStr timestamp)]).

(** *** The logger and the event loop around it *)

Record Logger : Type := {
  logBuffer : list json;
  bufferSize : nat;
  flushInterval : Z
}.

Definition new_Logger : Logger :=
  {| logBuffer := []; bufferSize := 100; flushInterval := 5000 |}.

Definition set_logBuffer (l : Logger) (b : list json) : Logger :=
  {| logBuffer := b; bufferSize := bufferSize l;
     flushInterval := flushInterval l |}.

(** One [fetch] call of [sendToGrafana]. *)
Record Request : Type := {
  req_url : string;
  req_body : string;
  req_authorization : string
}.

(** How the awaited [fetch] of a flush ends. *)
Inductive outcome : Type :=
| Responded (ok : bool) (status : Z)
| NetworkError (message : string).

(** [sendToGrafana] throws on a rejected fetch and on [!response.ok]. *)
Definition send_throws (o : outcome) : bool :=
  match o with
  | Responded ok _ => negb ok
  | NetworkError _ => true
  end.

(** The logger together with what the event loop holds for it:
    - [suspended]: the [flush] calls waiting at [await], oldest first, each
      with the [logsToSend] it captured;
    - [posted]: the fetch calls made so far, oldest first;
    - [acknowledged]: the records of the batches whose fetch came back ok
      (what the log backend has taken; kept to state delivery properties). *)
Record World : Type := {
  logger : Logger;
  suspended : list (list json);
  posted : list Request;
  acknowledged : list json
}.

Definition boot : World :=
  {| logger := new_Logger; suspended := []; posted := [];
     acknowledged := [] |}.

Record Stream : Type := {
  stream : json;
  values : list (string * string)
}.

Fixpoint defined (l : list (string * option json)) : list (string * json) :=
  match l with
  | [] => []
  | (k, Some x) :: rest => (k, x) :: defined rest
  | (_, None) :: rest => defined rest
  end.

(** [streamMap[labelKey].values.push(value)], creating the stream first when
    the key is new. *)
Fixpoint stream_push (labelKey : string) (labels : json)
    (value : string * string) (streamMap : list (string * Stream))
  : list (string * Stream) :=
  match streamMap with
  | [] => [(labelKey, {| stream := labels; values := [value] |})]
  | (k, s) :: rest =>
      if String.eqb labelKey k
      then (k, {| stream := stream s; values := values s ++ [value] |}) :: rest
      else (k, s) :: stream_push labelKey labels value rest
  end.

(** What the event loop may run next: a call of [log] ([now] is the
    [toISOString()] of the clock), a call of [flush] from the interval timer
    or an exit handler, or the settling of the fetch of the [i]-th oldest
    suspended flush. *)
Inductive event : Type :=
| Log (level type message : json) (details : option json) (now : string)
| Timer
| Settle (i : nat) (o : outcome).

(** The platform's serialisers are parameters: [JSON.stringify], and the
    rendering [(new Date(t).getTime() * 1000000).toString()] of a record's
    timestamp property. *)
Section Platform.

Variable JSON_stringify : json -> string.
Variable nanoseconds : option json -> string.
Variable config : Config.

Definition formatForLoki (lc : LoggingConfig) (logs : list json)
  : list Stream :=
  let source :=
    match logging_source lc with
    | Some s => if string_truthy s then s else "jwt-pizza-service"
    | None => "jwt-pizza-service"
    end in
  List.map snd
    (fold_left
       (fun streamMap log =>
          let labels :=
            JObj (defined [("level", prop "level" log);
                           ("type", prop "type" log);
                           ("source", Some (JStr source))]) in
          let labelKey := JSON_stringify labels in
          stream_push labelKey labels
            (nanoseconds (prop "timestamp" log), JSON_stringify log)
            streamMap)
       logs []).

Definition stream_json (s : Stream) : json :=
  JObj [("stream", stream s);
        ("values",
         JArr (List.map (fun v => JArr [JStr (fst v); JStr (snd v)])
                        (values s)))].

(** The synchronous part of [sendToGrafana]: the request it hands to
    [fetch]. *)
Definition sendToGrafana (lc : LoggingConfig) (streams : list Stream)
  : Request :=
  {| req_url := logging_url lc;
     req_body :=
       JSON_stringify (JObj [("streams", JArr (List.map stream_json streams))]);
     req_authorization :=
       "Bearer " +:+ logging_userId lc +:+ ":" +:+ logging_apiKey lc |}.

(** [flush] up to its [await]: the two early returns, the swap of the
    buffer, the formatting and the fetch call. *)
Definition flush (w : World) : World :=
  match logBuffer (logger w) with
  | [] => w
  | _ :: _ =>
      match logging_enabled config with
      | None => w
      | Some lc =>
          let logsToSend := logBuffer (logger w) in
          let streams := formatForLoki lc logsToSend in
          {| logger := set_logBuffer (logger w) [];
             suspended := suspended w ++ [logsToSend];
             posted := posted w ++ [sendToGrafana lc streams];
             acknowledged := acknowledged w |}
      end
  end.

(** [flush] after its [await]: nothing more on success; in the [catch],
    [this.logBuffer.unshift(...logsToSend)]. *)
Definition flush_resume (i : nat) (o : outcome) (w : World) : World :=
  match suspended w !! i with
  | None => w
  | Some logsToSend =>
      if send_throws o
      then {| logger :=
                set_logBuffer (logger w) (logsToSend ++ logBuffer (logger w));
              suspended := delete i (suspended w);
              posted := posted w; acknowledged := acknowledged w |}
      else {| logger := logger w; suspended := delete i (suspended w);
              posted := posted w;
              acknowledged := acknowledged w ++ logsToSend |}
  end.

(** [log]: build the entry, push it, flush when the buffer is full. (The
    echo to the console outside production changes no state and is left
    out.) *)
Definition log (level type message : json) (details : option json)
    (now : string) (w : World) : World :=
  let entry := logEntry level type message details now in
  let w1 :=
    {| logger := set_logBuffer (logger w) (logBuffer (logger w) ++ [entry]);
       suspended := suspended w;
       posted := posted w; acknowledged := acknowledged w |} in
  if (bufferSize (logger w1) <=? length (logBuffer (logger w1)))%nat
  then flush w1
  else w1.

Definition step (w : World) (e : event) : World :=
  match e with
  | Log level type message details now => log level type message details now w
  | Timer => flush w
  | Settle i o => flush_resume i o w
  end.

Definition run (w : World) (trace : list event) : World :=
  fold_left step trace w.

(** The entries the [Log] events of a trace create, in order. *)
Definition logged (trace : list event) : list json :=
  List.flat_map
    (fun e =>
       match e with
       | Log level type message details now =>
           [logEntry level type message details now]
       | _ => []
       end) trace.

Definition is_log (e : event) : bool :=
  match e with
  | Log _ _ _ _ _ => true
  | _ => false
  end.

(** Every record the pipeline holds or has handed over: acknowledged by the
    backend, captured by a suspended flush, or waiting in the buffer. *)
Definition holdings (w : World) : list json :=
  acknowledged w ++ concat (suspended w) ++ logBuffer (logger w).


End Platform.

End LoggerJs.
Export LoggerJs.

(** ** The metric aggregator and exporter (src/metrics.js) *)

Module MetricsJs.

(** *** Numbers as text *)

Definition newline : string := String (Ascii.ascii_of_nat 10) EmptyString.

Fixpoint zeros (k : nat) : string :=
  match k with
  | O => EmptyString
  | S k' => String (Ascii.ascii_of_nat 48) (zeros k')
  end.

(** The decimal digits of [n >= 0], at least [f + 1] of them, with a point
    before the last [f]. *)
Definition fixed_digits (f : nat) (n : Z) : string :=
  let m := pretty n in
  let m := zeros (S f - String.length m) +:+ m in
  let k := String.length m in
  if (f =? 0)%nat then m
  else String.substring 0 (k - f) m +:+ "." +:+ String.substring (k - f) f m.

(** The integer nearest to [m * 2^e * 10^f], the larger one on a tie. *)
Definition scaled (f : nat) (m : positive) (e : Z) : Z :=
  let p := Z.pos m * 10 ^ Z.of_nat f in
  if 0 <=? e then p * 2 ^ e
  else (2 * p + 2 ^ (- e)) / (2 * 2 ^ (- e)).

(** [m * 2^e >= 10^21] *)
Definition at_least_1e21 (m : positive) (e : Z) : bool :=
  if 0 <=? e then 10 ^ 21 <=? Z.pos m * 2 ^ e
  else 10 ^ 21 * 2 ^ (- e) <=? Z.pos m.

Definition of_nat (n : nat) : float :=
  PrimFloat.of_uint63 (Uint63.of_Z (Z.of_nat n)).

Record OsSample : Type := {
  loadavg1 : float;
  cpus : nat;
  totalmem : float;
  freemem : float
}.

(** *** The aggregator *)

Inductive userId : Type :=
| UidNumber (n : Z)
| UidString (s : string).

#[global] Instance userId_eq_dec : EqDecision userId.
Proof. solve_decision. Defined.

#[global] Instance userId_countable : Countable userId.
Proof.
  refine (inj_countable'
            (fun u => match u with
                      | UidNumber n => inl n
                      | UidString s => inr s
                      end)
            (fun c => match c with
                      | inl n => UidNumber n
                      | inr s => UidString s
                      end) _).
  intros []; reflexivity.
Defined.

Definition userId_truthy (u : userId) : bool :=
  match u with
  | UidNumber n => negb (n =? 0)
  | UidString s => string_truthy s
  end.

Record Metrics : Type := {
  totalRequests : Z;
  getRequests : Z;
  postRequests : Z;
  putRequests : Z;
  deleteRequests : Z;
  activeUsers : gset userId;
  authAttempts : Z;
  authSuccesses : Z;
  authFailures : Z;
  pizzasSold : Z;
  pizzaCreationFails : Z;
  revenue : float;
  serviceLatencies : list float;
  pizzaLatencies : list float
}.

Definition new_Metrics : Metrics :=
  {| totalRequests := 0; getRequests := 0; postRequests := 0;
     putRequests := 0; deleteRequests := 0; activeUsers := ∅;
     authAttempts := 0; authSuccesses := 0; authFailures := 0;
     pizzasSold := 0; pizzaCreationFails := 0; revenue := PrimFloat.zero;
     serviceLatencies := []; pizzaLatencies := [] |}.

Definition recognized (method : string) : bool :=
  String.eqb method "GET" || String.eqb method "POST"
  || String.eqb method "PUT" || String.eqb method "DELETE".

Definition incrementRequests (method : string) (m : Metrics) : Metrics :=
  let bump (name : string) (n : Z) : Z :=
    if String.eqb method name then n + 1 else n in
  {| totalRequests := totalRequests m + 1;
     getRequests := bump "GET" (getRequests m);
     postRequests := bump "POST" (postRequests m);
     putRequests := bump "PUT" (putRequests m);
     deleteRequests := bump "DELETE" (deleteRequests m);
     activeUsers := activeUsers m;
     authAttempts := authAttempts m; authSuccesses := authSuccesses m;
     authFailures := authFailures m;
     pizzasSold := pizzasSold m; pizzaCreationFails := pizzaCreationFails m;
     revenue := revenue m;
     serviceLatencies := serviceLatencies m;
     pizzaLatencies := pizzaLatencies m |}.

(** [None] is an absent ([undefined], [null]) argument. *)
Definition trackActiveUser (id : option userId) (m : Metrics) : Metrics :=
  match id with
  | Some u =>
      if userId_truthy u
      then {| totalRequests := totalRequests m; getRequests := getRequests m;
              postRequests := postRequests m; putRequests := putRequests m;
              deleteRequests := deleteRequests m;
              activeUsers := {[u]} ∪ activeUsers m;
              authAttempts := authAttempts m;
              authSuccesses := authSuccesses m;
              authFailures := authFailures m;
              pizzasSold := pizzasSold m;
              pizzaCreationFails := pizzaCreationFails m;
              revenue := revenue m;
              serviceLatencies := serviceLatencies m;
              pizzaLatencies := pizzaLatencies m |}
      else m
  | None => m
  end.

Definition trackAuthAttempt (success : bool) (m : Metrics) : Metrics :=
  {| totalRequests := totalRequests m; getRequests := getRequests m;
     postRequests := postRequests m; putRequests := putRequests m;
     deleteRequests := deleteRequests m; activeUsers := activeUsers m;
     authAttempts := authAttempts m + 1;
     authSuccesses :=
       if success then authSuccesses m + 1 else authSuccesses m;
     authFailures :=
       if success then authFailures m else authFailures m + 1;
     pizzasSold := pizzasSold m; pizzaCreationFails := pizzaCreationFails m;
     revenue := revenue m;
     serviceLatencies := serviceLatencies m;
     pizzaLatencies := pizzaLatencies m |}.

Definition trackPizzaPurchase (success : bool) (latency : option float)
    (pizzaCount : Z) (amount : float) (m : Metrics) : Metrics :=
  {| totalRequests := totalRequests m; getRequests := getRequests m;
     postRequests := postRequests m; putRequests := putRequests m;
     deleteRequests := deleteRequests m; activeUsers := activeUsers m;
     authAttempts := authAttempts m; authSuccesses := authSuccesses m;
     authFailures := authFailures m;
     pizzasSold := if success then pizzasSold m + pizzaCount else pizzasSold m;
     pizzaCreationFails :=
       if success then pizzaCreationFails m
       else pizzaCreationFails m + pizzaCount;
     revenue :=
       if success then PrimFloat.add (revenue m) amount else revenue m;
     serviceLatencies := serviceLatencies m;
     pizzaLatencies :=
       match latency with
       | Some l =>
           if number_truthy l then pizzaLatencies m ++ [l]
           else pizzaLatencies m
       | None => pizzaLatencies m
       end |}.

Definition trackServiceLatency (latency : float) (m : Metrics) : Metrics :=
  {| totalRequests := totalRequests m; getRequests := getRequests m;
     postRequests := postRequests m; putRequests := putRequests m;
     deleteRequests := deleteRequests m; activeUsers := activeUsers m;
     authAttempts := authAttempts m; authSuccesses := authSuccesses m;
     authFailures := authFailures m;
     pizzasSold := pizzasSold m; pizzaCreationFails := pizzaCreationFails m;
     revenue := revenue m;
     serviceLatencies := serviceLatencies m ++ [latency];
     pizzaLatencies := pizzaLatencies m |}.

(** [this.serviceLatencies = []; this.pizzaLatencies = [];] *)
Definition reset_latencies (m : Metrics) : Metrics :=
  {| totalRequests := totalRequests m; getRequests := getRequests m;
     postRequests := postRequests m; putRequests := putRequests m;
     deleteRequests := deleteRequests m; activeUsers := activeUsers m;
     authAttempts := authAttempts m; authSuccesses := authSuccesses m;
     authFailures := authFailures m;
     pizzasSold := pizzasSold m; pizzaCreationFails := pizzaCreationFails m;
     revenue := revenue m;
     serviceLatencies := []; pizzaLatencies := [] |}.

(** Every counter of the aggregator: the request totals, the auth counts,
    the pizza counts and the revenue accumulator. *)
Definition counters (m : Metrics) : list Z * float :=
  ([totalRequests m; getRequests m; postRequests m; putRequests m;
    deleteRequests m; authAttempts m; authSuccesses m; authFailures m;
    pizzasSold m; pizzaCreationFails m],
   revenue m).

(** The purchase latency would always be recorded if every latency that is
    passed were appended. *)
Definition latency_always_recorded : Prop :=
  forall success l pizzaCount amount m,
    pizzaLatencies (trackPizzaPurchase success (Some l) pizzaCount amount m)
    = pizzaLatencies m ++ [l].

(** The double nearest to 0.10. *)
Definition dime : float := 0x1.999999999999ap-4%float.

(** *** The exporter *)

Record MetricsBuilder : Type := {
  source : string;
  builder_metrics : list string
}.

Definition new_MetricsBuilder (src : string) : MetricsBuilder :=
  {| source := src; builder_metrics := [] |}.

Definition metric_line (src metricPrefix value metricType : string) : string :=
  metricPrefix +:+ ",source=" +:+ src +:+ ",type=" +:+ metricType
  +:+ " value=" +:+ value.

Definition addMetric (metricPrefix value metricType : string)
    (b : MetricsBuilder) : MetricsBuilder :=
  {| source := source b;
     builder_metrics :=
       builder_metrics b
       ++ [metric_line (source b) metricPrefix value metricType] |}.

Definition toString (b : MetricsBuilder) : string :=
  String.concat newline (builder_metrics b).

(** One [fetch] call of the exporter's [sendToGrafana]. *)
Record Post : Type := {
  post_url : string;
  post_authorization : string;
  post_body : string
}.

(** The aggregator together with what the event loop holds for it:
    - [exporting]: how many [sendMetricsToGrafana] calls wait at [await];
    - [sent]: the fetch calls made so far, oldest first. *)
Record Exporter : Type := {
  aggregator : Metrics;
  exporting : nat;
  sent : list Post
}.

Definition start : Exporter :=
  {| aggregator := new_Metrics; exporting := 0%nat; sent := [] |}.

Inductive call : Type :=
| IncrementRequests (method : string)
| TrackActiveUser (id : option userId)
| TrackAuthAttempt (success : bool)
| TrackPizzaPurchase (success : bool) (latency : option float)
    (pizzaCount : Z) (amount : float)
| TrackServiceLatency (latency : float)
| Export (os : OsSample)
| ExportSettled.

(** The calls of a trace that [incrementRequests] counts in the total
    only. *)
Definition unrecognized (calls : list call) : nat :=
  length (List.filter
            (fun c => match c with
                      | IncrementRequests method => negb (recognized method)
                      | _ => false
                      end) calls).

(** The ids a trace hands to [trackActiveUser] that pass its [if (userId)]. *)
Definition tracked (calls : list call) : list userId :=
  List.flat_map
    (fun c => match c with
              | TrackActiveUser (Some u) => if userId_truthy u then [u] else []
              | _ => []
              end) calls.


(** [Number.prototype.toString] is needed only where [toFixed] falls back
    on it (magnitudes from 10^21 on); it is a parameter. *)
Section Platform.

Variable Number_toString : float -> string.
Variable config : Config.

(** [x.toFixed(f)] *)
Definition toFixed (f : nat) (x : float) : string :=
  match Prim2SF x with
  | S754_nan => "NaN"
  | S754_infinity s => if s then "-Infinity" else "Infinity"
  | S754_zero _ => fixed_digits f 0
  | S754_finite s m e =>
      if at_least_1e21 m e then Number_toString x
      else (if s then "-" else "") +:+ fixed_digits f (scaled f m e)
  end.

Definition getCpuUsagePercentage (os : OsSample) : string :=
  let cpuUsage := PrimFloat.div (loadavg1 os) (of_nat (cpus os)) in
  toFixed 2 (PrimFloat.mul cpuUsage (of_nat 100)).

Definition getMemoryUsagePercentage (os : OsSample) : string :=
  let usedMemory := PrimFloat.sub (totalmem os) (freemem os) in
  let memoryUsage :=
    PrimFloat.mul (PrimFloat.div usedMemory (totalmem os)) (of_nat 100) in
  toFixed 2 memoryUsage.

(** [l.reduce((a, b) => a + b, 0) / l.length] *)
Definition average (l : list float) : float :=
  PrimFloat.div (fold_left PrimFloat.add l PrimFloat.zero)
                (of_nat (length l)).

(** The builder of [sendMetricsToGrafana] once every metric is added. *)
Definition build (mc : MetricsConfig) (os : OsSample) (m : Metrics)
  : MetricsBuilder :=
  let b := new_MetricsBuilder (metrics_source mc) in
  let b := addMetric "http_requests_total" (pretty (totalRequests m)) "counter" b in
  let b := addMetric "http_requests_get" (pretty (getRequests m)) "counter" b in
  let b := addMetric "http_requests_post" (pretty (postRequests m)) "counter" b in
  let b := addMetric "http_requests_put" (pretty (putRequests m)) "counter" b in
  let b := addMetric "http_requests_delete" (pretty (deleteRequests m)) "counter" b in
  let b := addMetric "active_users" (pretty (size (activeUsers m))) "gauge" b in
  let b := addMetric "auth_attempts" (pretty (authAttempts m)) "counter" b in
  let b := addMetric "auth_successes" (pretty (authSuccesses m)) "counter" b in
  let b := addMetric "auth_failures" (pretty (authFailures m)) "counter" b in
  let b := addMetric "cpu_usage_percent" (getCpuUsagePercentage os) "gauge" b in
  let b := addMetric "memory_usage_percent" (getMemoryUsagePercentage os) "gauge" b in
  let b := addMetric "pizzas_sold" (pretty (pizzasSold m)) "counter" b in
  let b := addMetric "pizza_creation_fails" (pretty (pizzaCreationFails m)) "counter" b in
  let b := addMetric "revenue" (toFixed 4 (revenue m)) "counter" b in
  let b :=
    match serviceLatencies m with
    | [] => b
    | _ :: _ =>
        addMetric "service_latency_ms"
          (toFixed 2 (average (serviceLatencies m))) "gauge" b
    end in
  match pizzaLatencies m with
  | [] => b
  | _ :: _ =>
      addMetric "pizza_creation_latency_ms"
        (toFixed 2 (average (pizzaLatencies m))) "gauge" b
  end.

(** [sendMetricsToGrafana] up to its [await]: skipped without a
    configuration; otherwise the payload is built and posted. Were the
    payload empty there would be nothing to await and the reset would follow
    at once. *)
Definition sendMetricsToGrafana (os : OsSample) (w : Exporter) : Exporter :=
  match metrics_enabled config with
  | None => w
  | Some mc =>
      let metricsString := toString (build mc os (aggregator w)) in
      if string_truthy metricsString
      then {| aggregator := aggregator w;
              exporting := S (exporting w);
              sent :=
                sent w
                ++ [{| post_url := metrics_url mc;
                       post_authorization := "Bearer " +:+ metrics_apiKey mc;
                       post_body := metricsString |}] |}
      else {| aggregator := reset_latencies (aggregator w);
              exporting := exporting w; sent := sent w |}
  end.

(** [sendMetricsToGrafana] after its [await]: [sendToGrafana] catches every
    error itself, so the reset runs whatever the fetch did. *)
Definition export_resume (w : Exporter) : Exporter :=
  match exporting w with
  | O => w
  | S n =>
      {| aggregator := reset_latencies (aggregator w);
         exporting := n; sent := sent w |}
  end.

Definition on_aggregator (f : Metrics -> Metrics) (w : Exporter) : Exporter :=
  {| aggregator := f (aggregator w); exporting := exporting w;
     sent := sent w |}.

Definition perform (w : Exporter) (c : call) : Exporter :=
  match c with
  | IncrementRequests method => on_aggregator (incrementRequests method) w
  | TrackActiveUser id => on_aggregator (trackActiveUser id) w
  | TrackAuthAttempt success => on_aggregator (trackAuthAttempt success) w
  | TrackPizzaPurchase success latency pizzaCount amount =>
      on_aggregator (trackPizzaPurchase success latency pizzaCount amount) w
  | TrackServiceLatency latency =>
      on_aggregator (trackServiceLatency latency) w
  | Export os => sendMetricsToGrafana os w
  | ExportSettled => export_resume w
  end.

Definition perform_all (w : Exporter) (calls : list call) : Exporter :=
  fold_left perform calls w.

End Platform.

End MetricsJs.
Export MetricsJs.

(** ** Sample data for the worked cases *)

Module Samples.

Definition sample_config : Config :=
  {| logging :=
       Some {| logging_url := "https://logs.example/loki/api/v1/push";
               logging_source := Some "jwt-pizza-service";
               logging_userId := "42"; logging_apiKey := "key" |};
     metrics :=
       Some {| metrics_url := "https://metrics.example/push";
               metrics_apiKey := "key"; metrics_source := "jwt-pizza-service" |} |}.

Definition sample_logging : LoggingConfig :=
  {| logging_url := "https://logs.example/loki/api/v1/push";
     logging_source := Some "jwt-pizza-service";
     logging_userId := "42"; logging_apiKey := "key" |}.

(** Stand-ins for the platform's serialisers where a worked case needs
    some: they write nothing. *)
Definition no_text {A : Type} (_ : A) : string := EmptyString.

Definition http_record (message now : string) : event :=
  Log (JStr "info") (JStr "http") (JStr message)
      (Some (JObj [("method", JStr "GET"); ("path", JStr "/api/order")])) now.

Definition record_A : event := http_record "A" "2024-05-01T10:00:00.000Z".
Definition record_B : event := http_record "B" "2024-05-01T10:00:01.000Z".
Definition record_C : event := http_record "C" "2024-05-01T10:00:02.000Z".
Definition record_D : event := http_record "D" "2024-05-01T10:00:03.000Z".

(** A logger whose capacity is three records. *)
Definition boot3 : World :=
  {| logger := {| logBuffer := []; bufferSize := 3; flushInterval := 5000 |};
     suspended := []; posted := []; acknowledged := [] |}.

Definition sample_metrics : MetricsConfig :=
  {| metrics_url := "https://metrics.example/push";
     metrics_apiKey := "key"; metrics_source := "jwt-pizza-service" |}.

Definition sample_os : OsSample :=
  {| loadavg1 := 0x1.8p+0%float; cpus := 4;
     totalmem := 0x1p+34%float; freemem := 0x1p+32%float |}.

Definition backend_down : outcome := Responded false 503.
Definition backend_up : outcome := Responded true 204.

End Samples.
Export Samples.

(** ** The callers of [log] (src/logger.js) *)

Module LoggerCallers.

(** An object literal some of whose values may be [undefined]: the first
    thing [log] does with its details is the JSON copy of [sanitize], which
    leaves such keys out, so the literal is written without them. *)
Definition literal (l : list (string * option json)) : json :=
  JObj (defined l).

(** What the wrappers that [httpLogger] puts around [res.json] and
    [res.send] leave in [responseBody]. *)
Definition capture_json (body : json) (responseBody : option json)
  : option json :=
  Some body.

Definition capture_send (body : json) (responseBody : option json)
  : option json :=
  match responseBody with
  | Some b => if truthy b then responseBody else Some body
  | None => Some body
  end.

(** What the [finish] handler of [httpLogger] reads: the request, the
    response status, the elapsed time and the captured body. *)
Record Exchange : Type := {
  http_method : json;
  http_path : json;
  http_statusCode : json;
  http_duration : json;
  http_authorization : option string;
  http_requestBody : option json;
  http_responseBody : option json;
  http_ip : option json
}.

(** [!!req.headers.authorization] *)
Definition hasAuth (x : Exchange) : bool :=
  match http_authorization x with
  | Some header => string_truthy header
  | None => false
  end.

Definition httpLogger_details (x : Exchange) : json :=
  literal [("method", Some (http_method x));
           ("path", Some (http_path x));
           ("statusCode", Some (http_statusCode x));
           ("duration", Some (http_duration x));
           ("hasAuth", Some (JBool (hasAuth x)));
           ("requestBody", http_requestBody x);
           ("responseBody", http_responseBody x);
           ("ip", http_ip x)].

(** The call of [log] each helper makes, as the event it is. *)
Definition httpLogger_finish (x : Exchange) (now : string) : event :=
  Log (JStr "info") (JStr "http") (JStr "HTTP Request")
      (Some (httpLogger_details x)) now.

(** [error ? a : b] on an error argument: [null] is falsy, an error object
    truthy. *)
Definition given {A : Type} (o : option A) : bool :=
  match o with Some _ => true | None => false end.

(** [error] is [None] for the default [null], else the [message] of the
    error object. *)
Definition logDbQuery (query : json) (params : option json) (duration : json)
    (error : option json) (now : string) : event :=
  Log (JStr (if given error then "error" else "info"))
      (JStr "database")
      (JStr (if given error then "Database query failed" else "Database query"))
      (Some (literal [("query", Some query);
                      ("params", option_map sanitize params);
                      ("duration", Some duration);
                      ("error", error)]))
      now.

Definition logFactoryRequest (requestBody responseBody : option json)
    (statusCode duration : json) (error : option json) (now : string)
  : event :=
  Log (JStr (if given error then "error" else "info"))
      (JStr "factory")
      (JStr (if given error then "Factory request failed" else "Factory request"))
      (Some (literal [("requestBody", option_map sanitize requestBody);
                      ("responseBody", option_map sanitize responseBody);
                      ("statusCode", Some statusCode);
                      ("duration", Some duration);
                      ("error", error)]))
      now.

(** [errorMessage] and [errorStack] are the [message] and [stack] of the
    error; an omitted [context] defaults to the empty object. *)
Definition logException (errorMessage errorStack : json)
    (context : option json) (now : string) : event :=
  Log (JStr "error") (JStr "exception") (JStr "Unhandled exception")
      (Some (JObj (obj_assign
                     [("errorMessage", errorMessage);
                      ("errorStack", errorStack)]
                     (own_props (sanitize (default (JObj []) context))))))
      now.

(** The record a [Log] event buffers. *)
Definition entry_of (e : event) : option json :=
  match e with
  | Log level type message details now =>
      Some (logEntry level type message details now)
  | _ => None
  end.

(** A [Log] event whose level, type and message hold no unredacted
    sensitive key (strings, as every caller in the file passes). *)
Definition plain_header (e : event) : bool :=
  match e with
  | Log level type message _ _ =>
      fully_redacted level && fully_redacted type && fully_redacted message
  | _ => true
  end.

(** One member of a mapping is in order when a sensitive key holds the
    marker and any other key holds a redacted value. *)
Definition member_redacted (kv : string * json) : bool :=
  if is_sensitive (fst kv) then is_marker (snd kv)
  else fully_redacted (snd kv).

Section Streams.

Variable JSON_stringify : json -> string.
Variable nanoseconds : option json -> string.

(** The parts of the loop body of [formatForLoki], named. *)
Definition source_of (lc : LoggingConfig) : string :=
  match logging_source lc with
  | Some s => if string_truthy s then s else "jwt-pizza-service"
  | None => "jwt-pizza-service"
  end.

Definition labels_of (lc : LoggingConfig) (log : json) : json :=
  JObj (defined [("level", prop "level" log);
                 ("type", prop "type" log);
                 ("source", Some (JStr (source_of lc)))]).

Definition labelKey_of (lc : LoggingConfig) (log : json) : string :=
  JSON_stringify (labels_of lc log).

Definition value_of (log : json) : string * string :=
  (nanoseconds (prop "timestamp" log), JSON_stringify log).

(** [streamMap] once every log is in. *)
Definition streamMap_of (lc : LoggingConfig) (logs : list json)
  : list (string * Stream) :=
  fold_left
    (fun streamMap log =>
       stream_push (labelKey_of lc log) (labels_of lc log) (value_of log)
                   streamMap)
    logs [].

End Streams.

Fixpoint stream_at (k : string) (streamMap : list (string * Stream))
  : option Stream :=
  match streamMap with
  | [] => None
  | (k', s) :: rest => if String.eqb k k' then Some s else stream_at k rest
  end.

End LoggerCallers.
Export LoggerCallers.

(** ** The request middleware (src/metrics.js) *)

Module Middleware.

(** What [requestTracker] reads of a request: [req.method], [req.path] and
    [req.user.id] ([None] when there is no user or no id). *)
Record Tracked : Type := {
  tracked_method : string;
  tracked_path : string;
  tracked_user : option userId
}.

(** On entry: count the request, note the user when there is one. *)
Definition requestTracker_enter (req : Tracked) (m : Metrics) : Metrics :=
  let m := incrementRequests (tracked_method req) m in
  match tracked_user req with
  | Some u => if userId_truthy u then trackActiveUser (Some u) m else m
  | None => m
  end.

(** [req.path.includes('/api/auth')] with a POST or PUT method. *)
Definition is_auth_attempt (req : Tracked) : bool :=
  includes (tracked_path req) "/api/auth"
  && (String.eqb (tracked_method req) "POST"
      || String.eqb (tracked_method req) "PUT").

(** The wrapped [res.json]: the auth attempt, then the latency
    [Date.now() - startTime]. *)
Definition requestTracker_json (req : Tracked) (statusCode : Z)
    (startTime now : float) (m : Metrics) : Metrics :=
  let m :=
    if is_auth_attempt req then trackAuthAttempt (statusCode =? 200) m
    else m in
  trackServiceLatency (PrimFloat.sub now startTime) m.

End Middleware.
Export Middleware.

(** Counting the calls of a trace. *)
Module Counting.

Definition exports (calls : list call) : nat :=
  length (List.filter (fun c => match c with Export _ => true | _ => false end)
                      calls).

Definition service_samples (calls : list call) : list float :=
  List.flat_map
    (fun c => match c with TrackServiceLatency l => [l] | _ => [] end) calls.

Definition pizza_samples (calls : list call) : list float :=
  List.flat_map
    (fun c => match c with
              | TrackPizzaPurchase _ (Some l) _ _ =>
                  if number_truthy l then [l] else []
              | _ => []
              end) calls.

(** A call that only updates the aggregator: neither the timer's export
    nor the return of a post. *)
Definition is_tracking (c : call) : bool :=
  match c with
  | Export _ | ExportSettled => false
  | _ => true
  end.

End Counting.
Export Counting.

(** ** More sample data *)

Module MoreSamples.

(** No destination configured, for logs or for metrics. *)
Definition off_config : Config := {| logging := None; metrics := None |}.

(** The way [recursiveSanitize] after [clone] treats one member of a
    mapping. *)
Definition sanitize_member (kv : string * json) : string * json :=
  (fst kv, if is_sensitive (fst kv) then JStr REDACTED
           else recursiveSanitize (clone (snd kv))).

End MoreSamples.
Export MoreSamples.

(** ** Long runs of purchases *)

Module RevenueRuns.



End RevenueRuns.
Export RevenueRuns.

(** * Properties *)

(** ** Structural induction on JSON data *)

Lemma json_induction (P : json -> Prop) :
  P JNull ->
  (forall b, P (JBool b)) ->
  (forall x, P (JNum x)) ->
  (forall s, P (JStr s)) ->
  (forall xs, Forall P xs -> P (JArr xs)) ->
  (forall fields, Forall (fun kv => P (snd kv)) fields -> P (JObj fields)) ->
  forall v, P v.
Proof.
  intros HNull HBool HNum HStr HArr HObj.
  fix IH 1.
  intros [ | b | x | s | xs | fields ];
    [ exact HNull | apply HBool | apply HNum | apply HStr | | ].
  - apply HArr. revert xs. fix IHxs 1.
    intros [ | x xs ]; constructor; [ apply IH | apply IHxs ].
  - apply HObj. revert fields. fix IHfs 1.
    intros [ | [k x] fields ]; constructor; [ apply IH | apply IHfs ].
Qed.

(** ** The sanitizer *)

Section SanitizerFacts.

Lemma index_key_digits (i : nat) : all_digits (index_key i) = true.
Proof.
  unfold index_key. generalize (Nat.to_uint i) as d.
  induction d; simpl; auto.
Qed.

Lemma lower_digit (c : Ascii.ascii) : is_digit c = true -> lower_char c = c.
Proof.
  destruct c as [[] [] [] [] [] [] [] []]; vm_compute; congruence.
Qed.

Lemma toLowerCase_digits (s : string) :
  all_digits s = true -> toLowerCase s = s.
Proof.
  induction s as [ | c s IH ]; simpl; [ reflexivity | ].
  intros [Hc Hs]%andb_prop. rewrite lower_digit, IH; auto.
Qed.

Lemma includes_digits (s field : string) :
  all_digits s = true -> In field sensitiveFields -> includes s field = false.
Proof.
  intros Hs Hf. induction s as [ | c s IH ].
  - simpl in Hf. intuition (subst; reflexivity).
  - simpl in Hs. apply andb_prop in Hs as [Hc Hs]. specialize (IH Hs).
    cbn [includes]. rewrite IH, orb_false_r.
    simpl in Hf.
    destruct c as [[] [] [] [] [] [] [] []]; try discriminate Hc;
      intuition (subst; reflexivity).
Qed.

Lemma index_key_plain (i : nat) : is_sensitive (index_key i) = false.
Proof.
  unfold is_sensitive.
  rewrite toLowerCase_digits by apply index_key_digits.
  apply not_true_is_false. intros (f & Hf & Hin)%existsb_exists.
  rewrite includes_digits in Hin; auto using index_key_digits.
  discriminate.
Qed.

Lemma recursiveSanitize_obj (fields : list (string * json)) :
  recursiveSanitize (JObj fields)
  = JObj (List.map
            (fun kv => (fst kv, if is_sensitive (fst kv) then JStr REDACTED
                                else recursiveSanitize (snd kv))) fields).
Proof.
  simpl. f_equal.
  induction fields as [ | [k x] fields IH ]; simpl; [ reflexivity | ].
  now rewrite IH.
Qed.

Lemma recursiveSanitize_arr (xs : list json) :
  recursiveSanitize (JArr xs) = JArr (List.map recursiveSanitize xs).
Proof.
  simpl. f_equal. generalize 0%nat as i.
  induction xs as [ | x xs IH ]; intros i; simpl; [ reflexivity | ].
  now rewrite index_key_plain, IH.
Qed.

Lemma clone_obj (fields : list (string * json)) :
  clone (JObj fields)
  = JObj (List.map (fun kv => (fst kv, clone (snd kv))) fields).
Proof.
  simpl. f_equal.
  induction fields as [ | [k x] fields IH ]; simpl; [ reflexivity | ].
  now rewrite IH.
Qed.

Lemma recursiveSanitize_leaf (v : json) :
  is_object v = false -> recursiveSanitize v = v.
Proof. destruct v; simpl; congruence. Qed.

Lemma clone_number_leaf (x : float) : is_object (clone_number x) = false.
Proof. unfold clone_number. repeat case_match; reflexivity. Qed.

Lemma clone_number_idem (x : float) : clone (clone_number x) = clone_number x.
Proof.
  unfold clone_number.
  destruct (PrimFloat.is_nan x || PrimFloat.is_infinity x) eqn:Hbad;
    [ reflexivity | ].
  destruct (PrimFloat.is_zero x) eqn:Hz; simpl; unfold clone_number.
  - reflexivity.
  - now rewrite Hbad, Hz.
Qed.

Lemma clone_idem (v : json) : clone (clone v) = clone v.
Proof.
  induction v as [ | b | x | s | xs IH | fields IH ] using json_induction;
    try reflexivity.
  - apply clone_number_idem.
  - simpl. f_equal. rewrite List.map_map.
    induction IH as [ | x xs Hx _ IHxs ]; simpl; congruence.
  - rewrite !clone_obj. f_equal. rewrite List.map_map.
    induction IH as [ | [k x] fields Hx _ IHfs ]; simpl in *; congruence.
Qed.

Lemma recursiveSanitize_idem (v : json) :
  recursiveSanitize (recursiveSanitize v) = recursiveSanitize v.
Proof.
  induction v as [ | b | x | s | xs IH | fields IH ] using json_induction;
    try reflexivity.
  - rewrite !recursiveSanitize_arr. f_equal. rewrite List.map_map.
    induction IH as [ | x xs Hx _ IHxs ]; simpl; congruence.
  - rewrite !recursiveSanitize_obj. f_equal. rewrite List.map_map.
    induction IH as [ | [k x] fields Hx _ IHfs ]; simpl in *;
      [ reflexivity | ].
    rewrite IHfs. destruct (is_sensitive k); simpl; congruence.
Qed.

Lemma clone_recursiveSanitize (v : json) :
  clone (recursiveSanitize v) = recursiveSanitize (clone v).
Proof.
  induction v as [ | b | x | s | xs IH | fields IH ] using json_induction;
    try reflexivity.
  - simpl. symmetry. apply recursiveSanitize_leaf, clone_number_leaf.
  - rewrite recursiveSanitize_arr. simpl clone.
    rewrite recursiveSanitize_arr. f_equal. rewrite !List.map_map.
    induction IH as [ | x xs Hx _ IHxs ]; simpl; congruence.
  - rewrite recursiveSanitize_obj, !clone_obj, recursiveSanitize_obj.
    f_equal. rewrite !List.map_map.
    induction IH as [ | [k x] fields Hx _ IHfs ]; simpl in *;
      [ reflexivity | ].
    rewrite IHfs. destruct (is_sensitive k); simpl; congruence.
Qed.

Lemma sanitize_idem (v : json) : sanitize (sanitize v) = sanitize v.
Proof.
  unfold sanitize. destruct (truthy v) eqn:Hv; simpl.
  - destruct (truthy (recursiveSanitize (clone v))); simpl; [ | reflexivity ].
    now rewrite clone_recursiveSanitize, clone_idem, recursiveSanitize_idem.
  - now rewrite Hv.
Qed.

Lemma fully_redacted_recursiveSanitize (v : json) :
  fully_redacted (recursiveSanitize v) = true.
Proof.
  induction v as [ | b | x | s | xs IH | fields IH ] using json_induction;
    try reflexivity.
  - rewrite recursiveSanitize_arr. simpl.
    induction IH as [ | x xs Hx _ IHxs ]; simpl; [ reflexivity | ].
    now rewrite Hx, IHxs.
  - rewrite recursiveSanitize_obj. simpl.
    induction IH as [ | [k x] fields Hx _ IHfs ]; simpl in *;
      [ reflexivity | ].
    rewrite IHfs, andb_true_r.
    destruct (is_sensitive k); [ reflexivity | exact Hx ].
Qed.

Lemma fully_redacted_sanitize (v : json) : fully_redacted (sanitize v) = true.
Proof.
  unfold sanitize. destruct (truthy v) eqn:Hv; simpl.
  - apply fully_redacted_recursiveSanitize.
  - destruct v; try reflexivity; discriminate Hv.
Qed.

(** Reading through a mapped document. *)

Lemma assoc_map (f : string -> json -> json) (k : string)
    (fields : list (string * json)) :
  assoc k (List.map (fun kv => (fst kv, f (fst kv) (snd kv))) fields)
  = option_map (f k) (assoc k fields).
Proof.
  induction fields as [ | [k' x] fields IH ]; simpl; [ reflexivity | ].
  destruct (String.eqb k k') eqn:Hk; [ | exact IH ].
  apply String.eqb_eq in Hk. now subst.
Qed.

Lemma at_path_app (p q : list selector) (v : json) :
  at_path (p ++ q) v
  = match at_path p v with Some x => at_path q x | None => None end.
Proof.
  revert v. induction p as [ | s p IH ]; intros v; simpl; [ reflexivity | ].
  destruct (select s v); [ apply IH | reflexivity ].
Qed.

Lemma at_path_none (p : list selector) (v : json) :
  is_object v = false -> p <> [] -> at_path p v = None.
Proof.
  intros Hv Hp. destruct p as [ | s p ]; [ congruence | ].
  simpl. destruct s, v; simpl in *; congruence.
Qed.

Lemma at_path_clone (p : list selector) (v : json) :
  at_path p (clone v) = option_map clone (at_path p v).
Proof.
  revert v. induction p as [ | s p IH ]; intros v; [ reflexivity | ].
  destruct v as [ | b | x | t | xs | fields ];
    try (destruct s; reflexivity).
  - change (clone (JNum x)) with (clone_number x).
    rewrite at_path_none by (apply clone_number_leaf || discriminate).
    destruct s; reflexivity.
  - destruct s as [ k | i ]; [ reflexivity | ].
    simpl. rewrite List.nth_error_map.
    destruct (nth_error xs i); simpl; [ apply IH | reflexivity ].
  - destruct s as [ k | i ]; [ | reflexivity ].
    rewrite clone_obj. simpl.
    rewrite (assoc_map (fun _ => clone)).
    destruct (assoc k fields); simpl; [ apply IH | reflexivity ].
Qed.

Lemma at_path_recursiveSanitize (p : list selector) (v : json) :
  forallb plain_selector p = true ->
  at_path p (recursiveSanitize v) = option_map recursiveSanitize (at_path p v).
Proof.
  revert v. induction p as [ | s p IH ]; intros v Hp; [ reflexivity | ].
  simpl in Hp. apply andb_prop in Hp as [Hs Hp].
  destruct v as [ | b | x | t | xs | fields ];
    try (destruct s; reflexivity).
  - destruct s as [ k | i ]; [ reflexivity | ].
    rewrite recursiveSanitize_arr. simpl. rewrite List.nth_error_map.
    destruct (nth_error xs i); simpl; [ now apply IH | reflexivity ].
  - destruct s as [ k | i ]; [ | reflexivity ].
    rewrite recursiveSanitize_obj. simpl.
    rewrite (assoc_map (fun key x => if is_sensitive key then JStr REDACTED
                                     else recursiveSanitize x)).
    simpl in Hs. apply negb_true_iff in Hs. rewrite Hs.
    destruct (assoc k fields); simpl; [ now apply IH | reflexivity ].
Qed.

Lemma select_sensitive (k : string) (v x : json) :
  is_sensitive k = true ->
  select (Key k) v = Some x ->
  select (Key k) (recursiveSanitize v) = Some (JStr REDACTED).
Proof.
  intros Hk Hx. destruct v; try discriminate Hx.
  rewrite recursiveSanitize_obj. simpl in *.
  rewrite (assoc_map (fun key x => if is_sensitive key then JStr REDACTED
                                   else recursiveSanitize x)).
  now rewrite Hx, Hk.
Qed.

(** C4. On every mapping, [sanitize] puts the marker under every sensitive
    key that is reached through non-sensitive keys (at any depth, through
    mappings and arrays); under a path of non-sensitive keys the value is the
    JSON copy of the input's, sanitized in turn, so a primitive value there is
    intact; no sensitive key of the result holds anything but the marker; the
    example of the specification evaluates as stated; and [sanitize] is
    idempotent. *)
Theorem sanitize_redacts_every_sensitive_key :
  (forall fields p k,
      forallb plain_selector p = true ->
      is_sensitive k = true ->
      is_Some (at_path (p ++ [Key k]) (JObj fields)) ->
      at_path (p ++ [Key k]) (sanitize (JObj fields)) = Some (JStr REDACTED))
  /\ (forall fields p,
      forallb plain_selector p = true ->
      at_path p (sanitize (JObj fields))
      = option_map (fun x => recursiveSanitize (clone x))
                   (at_path p (JObj fields)))
  /\ (forall fields p x,
      forallb plain_selector p = true ->
      at_path p (JObj fields) = Some x ->
      is_object x = false ->
      json_exact x ->
      at_path p (sanitize (JObj fields)) = Some x)
  /\ (forall v, fully_redacted (sanitize v) = true)
  /\ sanitize (JObj [("password", JStr "x");
                     ("nested", JObj [("token", JStr "y");
                                      ("keep", JStr "z")])])
     = JObj [("password", JStr "***REDACTED***");
             ("nested", JObj [("token", JStr "***REDACTED***");
                              ("keep", JStr "z")])]
  /\ (forall v, sanitize (sanitize v) = sanitize v).
Proof.
  assert (Hplain : forall fields p,
             forallb plain_selector p = true ->
             at_path p (sanitize (JObj fields))
             = option_map (fun x => recursiveSanitize (clone x))
                          (at_path p (JObj fields))).
  { intros fields p Hp. change (sanitize (JObj fields))
      with (recursiveSanitize (clone (JObj fields))).
    rewrite at_path_recursiveSanitize, at_path_clone by exact Hp.
    now destruct (at_path p (JObj fields)). }
  repeat split.
  - intros fields p k Hp Hk [x Hx].
    change (sanitize (JObj fields))
      with (recursiveSanitize (clone (JObj fields))).
    assert (Hc : is_Some (at_path (p ++ [Key k]) (clone (JObj fields))))
      by (rewrite at_path_clone, Hx; simpl; eauto).
    destruct Hc as [y Hy]. revert Hy. rewrite !at_path_app.
    rewrite at_path_recursiveSanitize by exact Hp.
    destruct (at_path p (clone (JObj fields))) as [ u | ];
      [ | discriminate ].
    cbn [at_path option_map].
    destruct (select (Key k) u) as [ z | ] eqn:Hz; [ | intros Hy; discriminate Hy ].
    intros _. now rewrite (select_sensitive k u z).
  - exact Hplain.
  - intros fields p x Hp Hx Hleaf Hexact.
    rewrite Hplain, Hx by exact Hp. simpl.
    rewrite Hexact. now rewrite recursiveSanitize_leaf.
  - apply fully_redacted_sanitize.
  - apply sanitize_idem.
Qed.

(** C5, as stated, fails: a mapping that sits in an array is walked, and its
    sensitive key is replaced. *)
Lemma array_element_is_sanitized :
  sanitize (JObj [("items", JArr [JObj [("password", JStr "x")]])])
  = JObj [("items", JArr [JObj [("password", JStr "***REDACTED***")]])]
  /\ ~ arrays_left_alone.
Proof.
  split; [ reflexivity | ].
  intros H. specialize (H [JObj [("password", JStr "x")]]).
  discriminate H.
Qed.

(** C5, amended. The walk goes into every object-typed value, arrays as well
    as mappings: an array is sanitized element by element, so an array of
    primitives comes back untouched, and a sensitive key of a mapping that is
    an element of an array gets the marker; values that are not objects are
    returned as they are. *)
Theorem recursiveSanitize_walks_arrays :
  (forall xs,
      recursiveSanitize (JArr xs) = JArr (List.map recursiveSanitize xs))
  /\ (forall xs,
      forallb (fun x => negb (is_object x)) xs = true ->
      recursiveSanitize (JArr xs) = JArr xs)
  /\ (forall xs i k x,
      at_path [Index i; Key k] (JArr xs) = Some x ->
      is_sensitive k = true ->
      at_path [Index i; Key k] (recursiveSanitize (JArr xs))
      = Some (JStr REDACTED))
  /\ (forall v, is_object v = false -> recursiveSanitize v = v).
Proof.
  repeat split.
  - apply recursiveSanitize_arr.
  - intros xs Hxs. rewrite recursiveSanitize_arr. f_equal.
    induction xs as [ | x xs IH ]; [ reflexivity | ].
    simpl in *. apply andb_prop in Hxs as [Hx Hxs].
    apply negb_true_iff in Hx.
    now rewrite recursiveSanitize_leaf, IH.
  - intros xs i k x Hx Hk.
    change [Index i; Key k] with ([Index i] ++ [Key k]) in *.
    revert Hx. rewrite !at_path_app.
    rewrite at_path_recursiveSanitize by reflexivity.
    destruct (at_path [Index i] (JArr xs)) as [ u | ]; [ | discriminate ].
    cbn [at_path option_map].
    destruct (select (Key k) u) as [ z | ] eqn:Hz; [ | intros Hy; discriminate Hy ].
    intros _. now rewrite (select_sensitive k u z).
  - apply recursiveSanitize_leaf.
Qed.

End SanitizerFacts.

(** ** Log records *)

Section RecordFacts.

Lemma assoc_obj_set_eq (k : string) (x : json) (fields : list (string * json)) :
  assoc k (obj_set k x fields) = Some x.
Proof.
  induction fields as [ | [k' y] fields IH ]; simpl.
  - now rewrite String.eqb_refl.
  - destruct (String.eqb k k') eqn:Hk; simpl; now rewrite Hk.
Qed.

Lemma assoc_obj_set_ne (k k' : string) (x : json)
    (fields : list (string * json)) :
  k <> k' -> assoc k (obj_set k' x fields) = assoc k fields.
Proof.
  intros Hne. apply String.eqb_neq in Hne.
  induction fields as [ | [k2 y] fields IH ]; simpl.
  - now rewrite Hne.
  - destruct (String.eqb k' k2) eqn:Hk; simpl.
    + apply String.eqb_eq in Hk. subst k2. now rewrite Hne.
    + now rewrite IH.
Qed.

Lemma assoc_absent (k : string) (fields : list (string * json)) :
  ~ In k (List.map fst fields) -> assoc k fields = None.
Proof.
  induction fields as [ | [k' y] fields IH ]; simpl; [ reflexivity | ].
  intros Hnot. destruct (String.eqb k k') eqn:Hk.
  - apply String.eqb_eq in Hk. subst k'. exfalso. apply Hnot. now left.
  - apply IH. intros Hin. apply Hnot. now right.
Qed.

Lemma assoc_obj_assign (k : string) (target props : list (string * json)) :
  List.NoDup (List.map fst props) ->
  assoc k (obj_assign target props)
  = match assoc k props with
    | Some x => Some x
    | None => assoc k target
    end.
Proof.
  unfold obj_assign. revert target.
  induction props as [ | [k' x] props IH ]; intros target Hnd; simpl;
    [ reflexivity | ].
  inversion Hnd as [ | ? ? Hfresh Hnd' ]; subst.
  rewrite IH by exact Hnd'.
  destruct (String.eqb k k') eqn:Hk.
  - apply String.eqb_eq in Hk. subst k'.
    now rewrite assoc_absent, assoc_obj_set_eq.
  - apply String.eqb_neq in Hk.
    now rewrite assoc_obj_set_ne.
Qed.

Lemma indexed_keys {A B} (f : A -> B) (l : list A) (i : nat) :
  List.map fst (indexed i (List.map f l)) = List.map fst (indexed i l).
Proof.
  revert i. induction l as [ | x l IH ]; intros i; simpl; [ reflexivity | ].
  now rewrite IH.
Qed.

(** Sanitizing keeps the own keys of a value, whatever it is. *)
Lemma sanitize_keys (v : json) :
  List.map fst (own_props (sanitize v)) = List.map fst (own_props v).
Proof.
  unfold sanitize. destruct (truthy v) eqn:Hv; simpl; [ | reflexivity ].
  destruct v as [ | b | x | t | xs | fields ]; try reflexivity.
  - simpl. rewrite recursiveSanitize_leaf by apply clone_number_leaf.
    unfold clone_number. repeat case_match; reflexivity.
  - change (clone (JArr xs)) with (JArr (List.map clone xs)).
    rewrite recursiveSanitize_arr. simpl. now rewrite !indexed_keys.
  - rewrite clone_obj, recursiveSanitize_obj. simpl.
    now rewrite !List.map_map.
Qed.

Lemma log_pushes_entry (JSON_stringify : json -> string)
    (nanoseconds : option json -> string) (config : Config)
    (level type message : json) (details : option json)
    (now : string) (w : World) :
  let entry := logEntry level type message details now in
  let w' := log JSON_stringify nanoseconds config
                level type message details now w in
  logBuffer (logger w') = logBuffer (logger w) ++ [entry]
  \/ (logBuffer (logger w') = []
      /\ suspended w' = suspended w ++ [logBuffer (logger w) ++ [entry]]).
Proof.
  intros entry w'. subst w'. unfold log. cbv zeta. fold entry.
  cbn [logger set_logBuffer logBuffer bufferSize].
  destruct (bufferSize (logger w) <=? length (logBuffer (logger w) ++ [entry]))%nat;
    [ | left; reflexivity ].
  unfold flush. cbn [logger set_logBuffer logBuffer suspended].
  destruct (logBuffer (logger w) ++ [entry]) as [ | r rs ];
    [ left; reflexivity | ].
  destruct (logging_enabled config);
    [ right; split; reflexivity | left; reflexivity ].
Qed.

(** C9. [log] spreads the sanitized details into the top level of the
    record: every own key of the details is a key of the record (none is put
    under a [fields] key), so a [level], [type] or [message] key of the
    details replaces the argument of that name, while [timestamp] always
    holds the creation time; and this record is what [log] pushes: it ends
    the buffer, or the batch of the flush that the push set off. The keys of
    the details are distinct, as those of an object are. *)
Theorem log_spreads_details (JSON_stringify : json -> string)
    (nanoseconds : option json -> string) (config : Config)
    (level type message : json) (details : option json)
    (now : string) (w : World) :
  List.NoDup (List.map fst (own_props (default (JObj []) details))) ->
  let sanitizedDetails := sanitize (default (JObj []) details) in
  let entry := logEntry level type message details now in
  let w' := log JSON_stringify nanoseconds config
                level type message details now w in
  prop "timestamp" entry = Some (JStr now)
  /\ (forall k,
        k <> "timestamp" ->
        prop k entry
        = match assoc k (own_props sanitizedDetails) with
          | Some x => Some x
          | None =>
              assoc k [("level", level); ("type", type); ("message", message)]
          end)
  /\ (logBuffer (logger w') = logBuffer (logger w) ++ [entry]
      \/ (logBuffer (logger w') = []
          /\ suspended w'
             = suspended w ++ [logBuffer (logger w) ++ [entry]])).
Proof.
  intros Hnd sanitizedDetails entry w'.
  rewrite <- sanitize_keys in Hnd. fold sanitizedDetails in Hnd.
  split; [ | split; [ | apply log_pushes_entry ] ];
    subst entry; unfold logEntry; fold sanitizedDetails; simpl prop.
  - apply assoc_obj_set_eq.
  - intros k Hk.
    rewrite assoc_obj_set_ne by exact Hk.
    now rewrite assoc_obj_assign.
Qed.

End RecordFacts.

(** ** The flush protocol *)

Section FlushFacts.

Variable JSON_stringify : json -> string.
Variable nanoseconds : option json -> string.
Variable config : Config.

Local Abbreviation flush := (flush JSON_stringify nanoseconds config).
Local Abbreviation log := (log JSON_stringify nanoseconds config).
Local Abbreviation step := (step JSON_stringify nanoseconds config).
Local Abbreviation run := (run JSON_stringify nanoseconds config).

Lemma flush_swaps (w : World) (lc : LoggingConfig) :
  logging_enabled config = Some lc ->
  logBuffer (logger w) <> [] ->
  flush w
  = {| logger := set_logBuffer (logger w) [];
       suspended := suspended w ++ [logBuffer (logger w)];
       posted :=
         posted w
         ++ [sendToGrafana JSON_stringify lc
               (formatForLoki JSON_stringify nanoseconds lc
                  (logBuffer (logger w)))];
       acknowledged := acknowledged w |}.
Proof.
  intros Hlc Hbuf. unfold LoggerJs.flush. rewrite Hlc.
  destruct (logBuffer (logger w)); [ congruence | reflexivity ].
Qed.

(** The [catch] of [flush]: the captured batch goes back in front of
    whatever the buffer holds by then; no new request is made. *)
Lemma flush_resume_failure (w : World) (i : nat) (o : outcome)
    (logsToSend : list json) :
  suspended w !! i = Some logsToSend ->
  send_throws o = true ->
  flush_resume i o w
  = {| logger := set_logBuffer (logger w) (logsToSend ++ logBuffer (logger w));
       suspended := delete i (suspended w);
       posted := posted w; acknowledged := acknowledged w |}.
Proof. intros Hi Ho. unfold flush_resume. now rewrite Hi, Ho. Qed.

Lemma flush_resume_success (w : World) (i : nat) (o : outcome)
    (logsToSend : list json) :
  suspended w !! i = Some logsToSend ->
  send_throws o = false ->
  flush_resume i o w
  = {| logger := logger w; suspended := delete i (suspended w);
       posted := posted w;
       acknowledged := acknowledged w ++ logsToSend |}.
Proof. intros Hi Ho. unfold flush_resume. now rewrite Hi, Ho. Qed.

Lemma set_logBuffer_twice (l : Logger) (b b' : list json) :
  set_logBuffer (set_logBuffer l b) b' = set_logBuffer l b'.
Proof. reflexivity. Qed.

(** Records logged while the buffer stays below its capacity are appended
    and nothing else happens. *)
Lemma run_logs_below_capacity (during : list event) (w : World) :
  forallb is_log during = true ->
  (length (logBuffer (logger w)) + length during < bufferSize (logger w))%nat ->
  run w during
  = {| logger :=
         set_logBuffer (logger w) (logBuffer (logger w) ++ logged during);
       suspended := suspended w; posted := posted w;
       acknowledged := acknowledged w |}.
Proof.
  revert w. induction during as [ | e during IH ]; intros w Hlog Hlen.
  - simpl. rewrite app_nil_r. now destruct w as [[] ? ? ?].
  - simpl in Hlog. apply andb_prop in Hlog as [He Hlog].
    destruct e as [ level type message details now | | ]; try discriminate He.
    change (run w (Log level type message details now :: during))
      with (run (log level type message details now w) during).
    assert (Hstep : log level type message details now w
                    = {| logger :=
                           set_logBuffer (logger w)
                             (logBuffer (logger w)
                              ++ [logEntry level type message details now]);
                         suspended := suspended w; posted := posted w;
                         acknowledged := acknowledged w |}).
    { unfold LoggerJs.log. cbv zeta. cbn [logger set_logBuffer logBuffer bufferSize].
      rewrite length_app. simpl length in *.
      destruct (Nat.leb_spec (bufferSize (logger w))
                             (length (logBuffer (logger w)) + 1));
        [ lia | reflexivity ]. }
    rewrite Hstep, IH; [ | exact Hlog | ].
    + cbn [logger set_logBuffer logBuffer suspended posted acknowledged logged
           flat_map].
      now rewrite <- app_assoc.
    + cbn [logger set_logBuffer logBuffer bufferSize].
      rewrite length_app. simpl length in *. lia.
Qed.

Lemma lookup_snoc {A} (l : list A) (x : A) : (l ++ [x]) !! length l = Some x.
Proof. induction l; simpl; auto. Qed.

Lemma delete_snoc {A} (l : list A) (x : A) : delete (length l) (l ++ [x]) = l.
Proof. induction l; simpl; [ reflexivity | ]. now f_equal. Qed.

(** C1. A flush that attempts delivery takes the whole buffer and makes one
    request. When that delivery fails, the attempted batch is put back in
    its order in front of the records logged meanwhile, and no request is
    added. The next flush takes batch and newcomers together and makes one
    more request; when it succeeds the buffer is left empty and every
    record has reached the backend exactly once. Whatever else happened
    while a flush was suspended, its failure puts its batch in front of what
    the buffer holds by then. *)
Theorem failed_flush_requeues_batch (w0 : World) (lc : LoggingConfig)
    (during : list event) (o : outcome) :
  logging_enabled config = Some lc ->
  logBuffer (logger w0) <> [] ->
  forallb is_log during = true ->
  (length during < bufferSize (logger w0))%nat ->
  send_throws o = true ->
  let batch := logBuffer (logger w0) in
  let request logs :=
    sendToGrafana JSON_stringify lc
      (formatForLoki JSON_stringify nanoseconds lc logs) in
  let i := length (suspended w0) in
  let w1 := flush w0 in
  let w2 := run w1 during in
  let w3 := flush_resume i o w2 in
  let w4 := flush w3 in
  let w5 := flush_resume i (Responded true 200) w4 in
  (logBuffer (logger w1) = []
   /\ suspended w1 = suspended w0 ++ [batch]
   /\ posted w1 = posted w0 ++ [request batch])
  /\ (logBuffer (logger w2) = logged during
      /\ suspended w2 = suspended w1 /\ posted w2 = posted w1)
  /\ (logBuffer (logger w3) = batch ++ logged during
      /\ suspended w3 = suspended w0
      /\ posted w3 = posted w0 ++ [request batch]
      /\ acknowledged w3 = acknowledged w0)
  /\ (logBuffer (logger w4) = []
      /\ suspended w4 = suspended w0 ++ [batch ++ logged during]
      /\ posted w4
         = posted w0 ++ [request batch; request (batch ++ logged during)])
  /\ (logBuffer (logger w5) = []
      /\ suspended w5 = suspended w0
      /\ posted w5 = posted w4
      /\ acknowledged w5 = acknowledged w0 ++ batch ++ logged during)
  /\ (forall w j logsToSend,
        suspended w !! j = Some logsToSend ->
        logBuffer (logger (flush_resume j o w))
        = logsToSend ++ logBuffer (logger w)
        /\ posted (flush_resume j o w) = posted w
        /\ acknowledged (flush_resume j o w) = acknowledged w).
Proof.
  intros Hlc Hbuf Hlog Hlen Ho batch request i w1 w2 w3 w4 w5.
  assert (Hany : forall w j logsToSend,
             suspended w !! j = Some logsToSend ->
             logBuffer (logger (flush_resume j o w))
             = logsToSend ++ logBuffer (logger w)
             /\ posted (flush_resume j o w) = posted w
             /\ acknowledged (flush_resume j o w) = acknowledged w).
  { intros w j logsToSend Hj.
    rewrite (flush_resume_failure _ _ _ logsToSend) by assumption.
    repeat split. }
  assert (H1 : w1 = {| logger := set_logBuffer (logger w0) [];
                       suspended := suspended w0 ++ [batch];
                       posted := posted w0 ++ [request batch];
                       acknowledged := acknowledged w0 |})
    by (apply flush_swaps; assumption).
  assert (H2 : w2 = {| logger := set_logBuffer (logger w0) (logged during);
                       suspended := suspended w0 ++ [batch];
                       posted := posted w0 ++ [request batch];
                       acknowledged := acknowledged w0 |}).
  { subst w2. rewrite H1. rewrite run_logs_below_capacity;
      [ reflexivity | exact Hlog | simpl; exact Hlen ]. }
  assert (H3 : w3 = {| logger :=
                         set_logBuffer (logger w0) (batch ++ logged during);
                       suspended := suspended w0;
                       posted := posted w0 ++ [request batch];
                       acknowledged := acknowledged w0 |}).
  { subst w3. rewrite H2.
    rewrite (flush_resume_failure _ _ _ batch);
      [ | apply lookup_snoc | exact Ho ].
    cbn [logger set_logBuffer logBuffer suspended posted acknowledged].
    subst i. now rewrite delete_snoc. }
  assert (H4 : w4 = {| logger := set_logBuffer (logger w0) [];
                       suspended := suspended w0 ++ [batch ++ logged during];
                       posted :=
                         (posted w0 ++ [request batch])
                         ++ [request (batch ++ logged during)];
                       acknowledged := acknowledged w0 |}).
  { subst w4. rewrite H3. rewrite (flush_swaps _ lc); [ reflexivity | exact Hlc | ].
    simpl. subst batch. destruct (logBuffer (logger w0)); [ congruence | discriminate ]. }
  assert (H5 : w5 = {| logger := set_logBuffer (logger w0) [];
                       suspended := suspended w0;
                       posted :=
                         (posted w0 ++ [request batch])
                         ++ [request (batch ++ logged during)];
                       acknowledged :=
                         acknowledged w0 ++ batch ++ logged during |}).
  { subst w5. rewrite H4.
    rewrite (flush_resume_success _ _ _ (batch ++ logged during));
      [ | apply lookup_snoc | reflexivity ].
    cbn [logger set_logBuffer logBuffer suspended posted acknowledged].
    subst i. now rewrite delete_snoc. }
  rewrite H5, H4, H3, H2, H1. simpl. rewrite <- !app_assoc. simpl.
  do 5 (split; [ repeat split; reflexivity | ]). exact Hany.
Qed.

(** Settling a flush moves its batch and loses nothing. *)
Lemma concat_delete (l : list (list json)) (i : nat) (b : list json) :
  l !! i = Some b -> Permutation (concat l) (b ++ concat (delete i l)).
Proof.
  revert i. induction l as [ | c l IH ]; intros [ | i ] Hi; try discriminate Hi.
  - simpl in *. now inversion Hi.
  - simpl in *. rewrite (IH i Hi).
    rewrite !app_assoc. apply Permutation_app_tail, Permutation_app_comm.
Qed.

Lemma holdings_flush (w : World) : holdings (flush w) = holdings w.
Proof.
  unfold LoggerJs.flush.
  destruct (logBuffer (logger w)) as [ | r rs ] eqn:Hbuf; [ reflexivity | ].
  destruct (logging_enabled config); [ | reflexivity ].
  unfold holdings. simpl. rewrite Hbuf, concat_app. simpl.
  now rewrite !app_nil_r.
Qed.

Lemma holdings_step (w : World) (e : event) :
  Permutation (holdings (step w e)) (holdings w ++ logged [e]).
Proof.
  destruct e as [ level type message details now | | i o ]; simpl.
  - unfold LoggerJs.log. cbv zeta.
    match goal with
    | |- context [if ?c then _ else _] => destruct c
    end; rewrite ?holdings_flush; unfold holdings; simpl;
      now rewrite !app_assoc.
  - now rewrite holdings_flush, app_nil_r.
  - rewrite app_nil_r. unfold flush_resume.
    destruct (suspended w !! i) as [ b | ] eqn:Hi; [ | reflexivity ].
    unfold holdings.
    destruct (send_throws o); simpl; rewrite (concat_delete _ _ _ Hi).
    + apply Permutation_app_head.
      rewrite !app_assoc. apply Permutation_app_tail, Permutation_app_comm.
    + now rewrite !app_assoc.
Qed.

Lemma holdings_run (trace : list event) (w : World) :
  Permutation (holdings (run w trace)) (holdings w ++ logged trace).
Proof.
  revert w. induction trace as [ | e trace IH ]; intros w.
  - simpl. now rewrite app_nil_r.
  - change (run w (e :: trace)) with (run (step w e) trace).
    rewrite IH, holdings_step.
    assert (logged (e :: trace) = logged [e] ++ logged trace) as ->
      by (unfold logged; simpl; now rewrite app_nil_r).
    now rewrite app_assoc.
Qed.


End FlushFacts.

(** The keys are matched whatever their case and wherever the word sits. *)
Example sanitize_matches_substrings :
  sanitize (JObj [("PassWord", JStr "x"); ("xAuthHeader", JNum 0x1p+0%float);
                  ("author", JStr "me"); ("path", JStr "/api/auth");
                  ("list", JArr [JStr "token"; JNum 0x1p+1%float])])
  = JObj [("PassWord", JStr "***REDACTED***");
          ("xAuthHeader", JStr "***REDACTED***");
          ("author", JStr "***REDACTED***"); ("path", JStr "/api/auth");
          ("list", JArr [JStr "token"; JNum 0x1p+1%float])].
Proof. reflexivity. Qed.

Example distinct_records :
  List.NoDup (logged [record_A; record_B; record_C]).
Proof. repeat constructor; simpl; intuition discriminate. Qed.

(** The scenario of the specification: three records fill a logger of
    capacity three; the flush this sets off fails and the next succeeds. *)
Example flush_round_trip :
  let run := run no_text no_text sample_config in
  let failed := run boot3 [record_A; record_B; record_C; Settle 0 backend_down] in
  let retried := run failed [Timer; Settle 0 backend_up] in
  logBuffer (logger failed) = logged [record_A; record_B; record_C]
  /\ length (posted failed) = 1%nat
  /\ logBuffer (logger retried) = []
  /\ length (posted retried) = 2%nat
  /\ acknowledged retried = logged [record_A; record_B; record_C]
  /\ suspended retried = [].
Proof. repeat split; reflexivity. Qed.

Lemma failed_flush_requeues_batch_witness :
  let w0 := run no_text no_text sample_config boot3 [record_A; record_B] in
  let w3 :=
    flush_resume 0 backend_down
      (run no_text no_text sample_config
           (flush no_text no_text sample_config w0) [record_C]) in
  logBuffer (logger w3) = logged [record_A; record_B; record_C]
  /\ length (posted w3) = 1%nat.
Proof.
  intros w0 w3.
  destruct (failed_flush_requeues_batch no_text no_text sample_config
              w0 sample_logging [record_C] backend_down)
    as (_ & _ & (Hbuf & _ & Hposted & _) & _);
    [ reflexivity | discriminate | reflexivity | simpl; lia | reflexivity | ].
  split; [ exact Hbuf | exact (f_equal (@length Request) Hposted) ].
Defined.


Lemma log_spreads_details_witness :
  prop "level"
       (logEntry (JStr "info") (JStr "http") (JStr "HTTP Request")
                 (Some (JObj [("level", JStr "debug"); ("password", JStr "x")]))
                 "2024-05-01T10:00:00.000Z")
  = Some (JStr "debug").
Proof.
  destruct (log_spreads_details no_text no_text sample_config
              (JStr "info") (JStr "http") (JStr "HTTP Request")
              (Some (JObj [("level", JStr "debug"); ("password", JStr "x")]))
              "2024-05-01T10:00:00.000Z" boot)
    as (_ & Hkeys & _).
  - repeat constructor; simpl; intuition discriminate.
  - exact (Hkeys "level" ltac:(discriminate)).
Defined.

(** ** The metric aggregator *)

Section AggregatorFacts.

Variable Number_toString : float -> string.
Variable config : Config.

Local Abbreviation sendMetricsToGrafana :=
  (sendMetricsToGrafana Number_toString config).
Local Abbreviation perform := (perform Number_toString config).
Local Abbreviation perform_all := (perform_all Number_toString config).
Local Abbreviation build := (build Number_toString).

(** The payload always opens with the request total, so it is never empty. *)
Lemma build_lines (mc : MetricsConfig) (os : OsSample) (m : Metrics) :
  exists latency_lines,
    builder_metrics (build mc os m)
    = [metric_line (metrics_source mc) "http_requests_total"
         (pretty (totalRequests m)) "counter";
       metric_line (metrics_source mc) "http_requests_get"
         (pretty (getRequests m)) "counter";
       metric_line (metrics_source mc) "http_requests_post"
         (pretty (postRequests m)) "counter";
       metric_line (metrics_source mc) "http_requests_put"
         (pretty (putRequests m)) "counter";
       metric_line (metrics_source mc) "http_requests_delete"
         (pretty (deleteRequests m)) "counter";
       metric_line (metrics_source mc) "active_users"
         (pretty (size (activeUsers m))) "gauge";
       metric_line (metrics_source mc) "auth_attempts"
         (pretty (authAttempts m)) "counter";
       metric_line (metrics_source mc) "auth_successes"
         (pretty (authSuccesses m)) "counter";
       metric_line (metrics_source mc) "auth_failures"
         (pretty (authFailures m)) "counter";
       metric_line (metrics_source mc) "cpu_usage_percent"
         (getCpuUsagePercentage Number_toString os) "gauge";
       metric_line (metrics_source mc) "memory_usage_percent"
         (getMemoryUsagePercentage Number_toString os) "gauge";
       metric_line (metrics_source mc) "pizzas_sold"
         (pretty (pizzasSold m)) "counter";
       metric_line (metrics_source mc) "pizza_creation_fails"
         (pretty (pizzaCreationFails m)) "counter";
       metric_line (metrics_source mc) "revenue"
         (toFixed Number_toString 4 (revenue m)) "counter"]
      ++ latency_lines.
Proof.
  unfold MetricsJs.build. cbv zeta.
  destruct (serviceLatencies m), (pizzaLatencies m);
    cbn [addMetric builder_metrics source new_MetricsBuilder app];
    eexists; reflexivity.
Qed.

Lemma payload_not_empty (mc : MetricsConfig) (os : OsSample) (m : Metrics) :
  string_truthy (toString (build mc os m)) = true.
Proof.
  destruct (build_lines mc os m) as [rest Hlines].
  unfold toString. rewrite Hlines. reflexivity.
Qed.

Lemma sendMetricsToGrafana_enabled (mc : MetricsConfig) (os : OsSample)
    (w : Exporter) :
  metrics_enabled config = Some mc ->
  sendMetricsToGrafana os w
  = {| aggregator := aggregator w;
       exporting := S (exporting w);
       sent :=
         sent w
         ++ [{| post_url := metrics_url mc;
                post_authorization := "Bearer " +:+ metrics_apiKey mc;
                post_body := toString (build mc os (aggregator w)) |}] |}.
Proof.
  intros Hmc. unfold MetricsJs.sendMetricsToGrafana.
  now rewrite Hmc, payload_not_empty.
Qed.

Lemma counters_perform_export (w : Exporter) (c : call) :
  match c with Export _ | ExportSettled => True | _ => False end ->
  counters (aggregator (perform w c)) = counters (aggregator w)
  /\ activeUsers (aggregator (perform w c)) = activeUsers (aggregator w).
Proof.
  destruct c; try contradiction; intros _; simpl.
  - unfold MetricsJs.sendMetricsToGrafana.
    destruct (metrics_enabled config); [ | now split ].
    destruct (string_truthy _); now split.
  - unfold export_resume. destruct (exporting w); now split.
Qed.

(** C2. An export changes no counter and no member of the active-user set:
    not when it builds and posts the payload, and not when it resumes after
    the post. With a configured destination the resumed export leaves both
    latency lists empty and the aggregator otherwise as it was; without one
    the export is skipped and nothing changes at all. *)
Theorem export_clears_only_latencies (os : OsSample) (w : Exporter) :
  let w1 := sendMetricsToGrafana os w in
  let w2 := export_resume w1 in
  counters (aggregator w1) = counters (aggregator w)
  /\ counters (aggregator w2) = counters (aggregator w)
  /\ activeUsers (aggregator w2) = activeUsers (aggregator w)
  /\ (forall mc,
        metrics_enabled config = Some mc ->
        serviceLatencies (aggregator w1) = serviceLatencies (aggregator w)
        /\ pizzaLatencies (aggregator w1) = pizzaLatencies (aggregator w)
        /\ serviceLatencies (aggregator w2) = []
        /\ pizzaLatencies (aggregator w2) = []
        /\ aggregator w2 = reset_latencies (aggregator w))
  /\ (metrics_enabled config = None -> w1 = w).
Proof.
  intros w1 w2.
  destruct (counters_perform_export w (Export os) I) as [Hc1 Hu1].
  destruct (counters_perform_export w1 ExportSettled I) as [Hc2 Hu2].
  change (perform w (Export os)) with w1 in *.
  change (perform w1 ExportSettled) with w2 in *.
  repeat split.
  - exact Hc1.
  - now rewrite Hc2.
  - now rewrite Hu2.
  - subst w1. now rewrite (sendMetricsToGrafana_enabled mc).
  - subst w1. now rewrite (sendMetricsToGrafana_enabled mc).
  - subst w2 w1. now rewrite (sendMetricsToGrafana_enabled mc).
  - subst w2 w1. now rewrite (sendMetricsToGrafana_enabled mc).
  - subst w2 w1. now rewrite (sendMetricsToGrafana_enabled mc).
  - intros Hoff. subst w1. unfold MetricsJs.sendMetricsToGrafana.
    now rewrite Hoff.
Qed.

(** C7. After any sequence of calls from a fresh aggregator the request
    total is the sum of the four per-method counters and of the number of
    [incrementRequests] calls whose method is none of the four. *)
Theorem total_is_sum_of_methods (calls : list call) :
  let m := aggregator (perform_all start calls) in
  totalRequests m
  = getRequests m + postRequests m + putRequests m + deleteRequests m
    + Z.of_nat (unrecognized calls).
Proof.
  intros m.
  assert (Hgen : forall calls w,
             let m' := aggregator (perform_all w calls) in
             let m0 := aggregator w in
             totalRequests m'
             - (getRequests m' + postRequests m' + putRequests m'
                + deleteRequests m')
             = totalRequests m0
               - (getRequests m0 + postRequests m0 + putRequests m0
                  + deleteRequests m0)
               + Z.of_nat (unrecognized calls)).
  { clear. induction calls as [ | c calls IH ]; intros w;
      [ cbv zeta; unfold unrecognized; simpl; lia | ].
    change (perform_all w (c :: calls)) with (perform_all (perform w c) calls).
    cbv zeta in *. rewrite IH. clear IH.
    destruct c as [ method | id | success | success latency pizzaCount amount
                  | latency | os | ].
    - unfold unrecognized, recognized. simpl.
      destruct (String.eqb_spec method "GET") as [ -> | _ ];
        [ simpl; lia | ].
      destruct (String.eqb_spec method "POST") as [ -> | _ ];
        [ simpl; lia | ].
      destruct (String.eqb_spec method "PUT") as [ -> | _ ];
        [ simpl; lia | ].
      destruct (String.eqb_spec method "DELETE") as [ -> | _ ];
        simpl; lia.
    - unfold unrecognized. simpl. unfold trackActiveUser.
      destruct id as [ u | ]; [ destruct (userId_truthy u) | ]; simpl; lia.
    - unfold unrecognized. simpl. lia.
    - unfold unrecognized. simpl. lia.
    - unfold unrecognized. simpl. lia.
    - destruct (counters_perform_export w (Export os) I) as [Hc _].
      unfold counters in Hc. injection Hc as H1 H2 H3 H4 H5 _ _ _ _ _ _.
      unfold unrecognized. cbn [List.filter length MetricsJs.perform]. lia.
    - destruct (counters_perform_export w ExportSettled I) as [Hc _].
      unfold counters in Hc. injection Hc as H1 H2 H3 H4 H5 _ _ _ _ _ _.
      unfold unrecognized. cbn [List.filter length MetricsJs.perform]. lia. }
  specialize (Hgen calls start). cbv zeta in Hgen. subst m.
  simpl in Hgen. lia.
Qed.

(** C3, amended. A successful purchase adds the count to the sold counter
    and the amount to the revenue accumulator; a failed one adds the count
    to the failure counter; the latency is appended, on success and on
    failure alike, when it is passed and is truthy (a number other than 0
    and NaN); a latency that is absent or not truthy leaves the list as it
    was; nothing else changes. *)
Theorem trackPizzaPurchase_effect (success : bool) (latency : option float)
    (pizzaCount : Z) (amount : float) (m : Metrics) :
  let m' := trackPizzaPurchase success latency pizzaCount amount m in
  (success = true ->
   pizzasSold m' = pizzasSold m + pizzaCount
   /\ revenue m' = PrimFloat.add (revenue m) amount
   /\ pizzaCreationFails m' = pizzaCreationFails m)
  /\ (success = false ->
      pizzaCreationFails m' = pizzaCreationFails m + pizzaCount
      /\ pizzasSold m' = pizzasSold m
      /\ revenue m' = revenue m)
  /\ (forall l,
        latency = Some l -> number_truthy l = true ->
        pizzaLatencies m' = pizzaLatencies m ++ [l])
  /\ (forall l,
        latency = Some l -> number_truthy l = false ->
        pizzaLatencies m' = pizzaLatencies m)
  /\ (latency = None -> pizzaLatencies m' = pizzaLatencies m)
  /\ (totalRequests m' = totalRequests m
      /\ getRequests m' = getRequests m
      /\ postRequests m' = postRequests m
      /\ putRequests m' = putRequests m
      /\ deleteRequests m' = deleteRequests m
      /\ activeUsers m' = activeUsers m
      /\ authAttempts m' = authAttempts m
      /\ authSuccesses m' = authSuccesses m
      /\ authFailures m' = authFailures m
      /\ serviceLatencies m' = serviceLatencies m).
Proof.
  intros m'. subst m'. unfold trackPizzaPurchase. simpl.
  split; [ intros ->; auto | ].
  split; [ intros ->; auto | ].
  split; [ intros l -> Hl; now rewrite Hl | ].
  split; [ intros l -> Hl; now rewrite Hl | ].
  split; [ intros ->; reflexivity | ].
  repeat split.
Qed.



Lemma active_users_perform (w : Exporter) (c : call) :
  activeUsers (aggregator (perform w c))
  = list_to_set (tracked [c]) ∪ activeUsers (aggregator w).
Proof.
  destruct c as [ method | id | success | success latency pizzaCount amount
                | latency | os | ].
  - simpl. set_solver.
  - simpl. unfold trackActiveUser.
    destruct id as [ u | ]; [ destruct (userId_truthy u) | ];
      simpl; set_solver.
  - simpl. set_solver.
  - simpl. set_solver.
  - simpl. set_solver.
  - destruct (counters_perform_export w (Export os) I) as [_ ->].
    simpl. set_solver.
  - destruct (counters_perform_export w ExportSettled I) as [_ ->].
    simpl. set_solver.
Qed.

Lemma active_users_perform_all (calls : list call) (w : Exporter) :
  activeUsers (aggregator (perform_all w calls))
  = list_to_set (tracked calls) ∪ activeUsers (aggregator w).
Proof.
  revert w. induction calls as [ | c calls IH ]; intros w.
  - simpl. set_solver.
  - change (perform_all w (c :: calls))
      with (perform_all (perform w c) calls).
    rewrite IH, active_users_perform.
    assert (tracked (c :: calls) = tracked [c] ++ tracked calls) as ->
      by (unfold tracked; simpl; now rewrite app_nil_r).
    rewrite list_to_set_app_L. set_solver.
Qed.

(** C10. Nothing ever removes a member of the active-user set: whatever is
    called later, exports included, the members stay and the cardinality
    does not decrease; the set holds exactly the ids that
    [trackActiveUser] accepted since the aggregator was created; and the
    [active_users] line of an export carries that cardinality. *)
Theorem active_users_never_cleared (calls later : list call) :
  let m := aggregator (perform_all start calls) in
  let m' := aggregator (perform_all start (calls ++ later)) in
  activeUsers m ⊆ activeUsers m'
  /\ (size (activeUsers m) <= size (activeUsers m'))%nat
  /\ activeUsers m = list_to_set (tracked calls)
  /\ (forall u,
        userId_truthy u = true ->
        In (TrackActiveUser (Some u)) calls ->
        u ∈ activeUsers m /\ u ∈ activeUsers m')
  /\ (forall mc os,
        In (metric_line (metrics_source mc) "active_users"
              (pretty (size (activeUsers m))) "gauge")
           (builder_metrics (build mc os m))).
Proof.
  intros m m'.
  assert (Hsub : activeUsers m ⊆ activeUsers m').
  { subst m m'. unfold MetricsJs.perform_all. rewrite fold_left_app.
    fold (perform_all start calls).
    fold (perform_all (perform_all start calls) later).
    rewrite (active_users_perform_all later). set_solver. }
  assert (Hset : activeUsers m = list_to_set (tracked calls)).
  { subst m. rewrite active_users_perform_all. simpl. set_solver. }
  assert (Hin : forall u,
             userId_truthy u = true ->
             In (TrackActiveUser (Some u)) calls ->
             u ∈ activeUsers m).
  { intros u Hu Hcall. rewrite Hset.
    apply elem_of_list_to_set, list_elem_of_In.
    unfold tracked. apply in_flat_map.
    exists (TrackActiveUser (Some u)). split; [ assumption | ].
    rewrite Hu. now left. }
  split; [ exact Hsub | ].
  split; [ apply subseteq_size, Hsub | ].
  split; [ exact Hset | ].
  split; [ intros u Hu Hcall; split; [ | apply Hsub ]; now apply Hin | ].
  intros mc os. destruct (build_lines mc os m) as [rest ->].
  apply in_or_app. left. simpl. tauto.
Qed.

End AggregatorFacts.

(** Worked cases of [toFixed] and of the export payload. *)
Example toFixed_rounds_to_nearest :
  toFixed no_text 2 0x1.0147ae147ae14p+0%float = "1.00"
  /\ toFixed no_text 0 0x1.4p+1%float = "3"
  /\ toFixed no_text 2 0x1.edd2f1a9fbe77p+6%float = "123.46"
  /\ toFixed no_text 4 PrimFloat.zero = "0.0000"
  /\ toFixed no_text 2 PrimFloat.nan = "NaN".
Proof. repeat split; vm_compute; reflexivity. Qed.

Example export_payload :
  let w :=
    perform_all no_text sample_config start
      [IncrementRequests "GET"; IncrementRequests "PATCH";
       TrackActiveUser (Some (UidNumber 7)); TrackActiveUser (Some (UidNumber 7));
       TrackActiveUser (Some (UidNumber 0)); TrackAuthAttempt true;
       TrackPizzaPurchase true (Some 0x1p+3%float) 2 dime;
       TrackServiceLatency 0x1p+0%float; TrackServiceLatency 0x1p+1%float;
       Export sample_os] in
  List.map post_body (sent w)
  = [String.concat newline
       ["http_requests_total,source=jwt-pizza-service,type=counter value=2";
        "http_requests_get,source=jwt-pizza-service,type=counter value=1";
        "http_requests_post,source=jwt-pizza-service,type=counter value=0";
        "http_requests_put,source=jwt-pizza-service,type=counter value=0";
        "http_requests_delete,source=jwt-pizza-service,type=counter value=0";
        "active_users,source=jwt-pizza-service,type=gauge value=1";
        "auth_attempts,source=jwt-pizza-service,type=counter value=1";
        "auth_successes,source=jwt-pizza-service,type=counter value=1";
        "auth_failures,source=jwt-pizza-service,type=counter value=0";
        "cpu_usage_percent,source=jwt-pizza-service,type=gauge value=37.50";
        "memory_usage_percent,source=jwt-pizza-service,type=gauge value=75.00";
        "pizzas_sold,source=jwt-pizza-service,type=counter value=2";
        "pizza_creation_fails,source=jwt-pizza-service,type=counter value=0";
        "revenue,source=jwt-pizza-service,type=counter value=0.1000";
        "service_latency_ms,source=jwt-pizza-service,type=gauge value=1.50";
        "pizza_creation_latency_ms,source=jwt-pizza-service,type=gauge value=8.00"]]
  /\ serviceLatencies (aggregator w) = [0x1p+0%float; 0x1p+1%float]
  /\ serviceLatencies (aggregator (export_resume w)) = [].
Proof. repeat split; vm_compute; reflexivity. Qed.

(** C3, as stated, fails: a latency of zero is passed and is not recorded. *)
Lemma zero_latency_is_dropped :
  pizzaLatencies
    (trackPizzaPurchase true (Some PrimFloat.zero) 1 dime new_Metrics) = []
  /\ pizzaLatencies
       (trackPizzaPurchase false (Some PrimFloat.zero) 1 dime new_Metrics) = []
  /\ ~ latency_always_recorded.
Proof.
  split; [ reflexivity | split; [ reflexivity | ] ].
  intros H. specialize (H true PrimFloat.zero 1 dime new_Metrics).
  discriminate H.
Qed.



(** * Further properties of the code *)

(** ** The buffer and the flush, beyond the claims *)

Section BufferFacts.

Variable JSON_stringify : json -> string.
Variable nanoseconds : option json -> string.
Variable config : Config.

Local Abbreviation flush := (flush JSON_stringify nanoseconds config).
Local Abbreviation log := (log JSON_stringify nanoseconds config).
Local Abbreviation step := (step JSON_stringify nanoseconds config).
Local Abbreviation run := (run JSON_stringify nanoseconds config).

Lemma flush_unconfigured (w : World) :
  logging_enabled config = None -> flush w = w.
Proof.
  intros Hoff. unfold LoggerJs.flush. rewrite Hoff.
  now destruct (logBuffer (logger w)).
Qed.

Lemma run_unconfigured (trace : list event) (w : World) :
  logging_enabled config = None ->
  suspended w = [] ->
  run w trace
  = {| logger :=
         set_logBuffer (logger w) (logBuffer (logger w) ++ logged trace);
       suspended := []; posted := posted w;
       acknowledged := acknowledged w |}.
Proof.
  intros Hoff. revert w. induction trace as [ | e trace IH ]; intros w Hs.
  - simpl. rewrite app_nil_r. destruct w as [[] ? ? ?]. simpl in *.
    now subst.
  - change (run w (e :: trace)) with (run (step w e) trace).
    destruct e as [ level type message details now | | i o ].
    + simpl LoggerJs.step. unfold LoggerJs.log. cbv zeta.
      rewrite flush_unconfigured by exact Hoff.
      match goal with
      | |- context [if ?c then ?a else ?a] =>
          replace (if c then a else a) with a by now destruct c
      end.
      rewrite IH by exact Hs. simpl.
      unfold logged at 2. simpl. fold (logged trace).
      now rewrite <- app_assoc.
    + simpl LoggerJs.step. rewrite flush_unconfigured by exact Hoff.
      now rewrite IH.
    + simpl LoggerJs.step. unfold flush_resume. rewrite Hs. simpl.
      now rewrite IH.
Qed.

(** X1. Without a configured log destination nothing is ever sent: after
    any events the logger has made no request, no flush is suspended, and
    the buffer holds every record logged since the start, in order (it is
    never emptied). *)
Theorem unconfigured_logger_only_buffers (trace : list event) :
  logging_enabled config = None ->
  let w := run boot trace in
  posted w = []
  /\ suspended w = []
  /\ acknowledged w = []
  /\ logBuffer (logger w) = logged trace.
Proof.
  intros Hoff w. subst w. rewrite run_unconfigured by (exact Hoff || reflexivity).
  repeat split.
Qed.

(** X2. With a configured destination, [log] appends the record and, when
    that brings the buffer to its capacity or beyond, starts a flush at
    once: the whole buffer, the new record last, becomes the batch of one
    new request and the buffer is left empty. Below the capacity the record
    is appended and no request is made. Either way the buffer is below a
    positive capacity when [log] returns. *)
Theorem log_flushes_at_capacity (lc : LoggingConfig)
    (level type message : json) (details : option json) (now : string)
    (w : World) :
  logging_enabled config = Some lc ->
  let batch :=
    logBuffer (logger w) ++ [logEntry level type message details now] in
  let w' := log level type message details now w in
  w' = (if (bufferSize (logger w) <=? length batch)%nat
        then {| logger := set_logBuffer (logger w) [];
                suspended := suspended w ++ [batch];
                posted :=
                  posted w
                  ++ [sendToGrafana JSON_stringify lc
                        (formatForLoki JSON_stringify nanoseconds lc batch)];
                acknowledged := acknowledged w |}
        else {| logger := set_logBuffer (logger w) batch;
                suspended := suspended w; posted := posted w;
                acknowledged := acknowledged w |})
  /\ ((0 < bufferSize (logger w))%nat ->
      (length (logBuffer (logger w')) < bufferSize (logger w'))%nat).
Proof.
  intros Hlc batch w'.
  assert (Hw : w' = (if (bufferSize (logger w) <=? length batch)%nat
        then {| logger := set_logBuffer (logger w) [];
                suspended := suspended w ++ [batch];
                posted :=
                  posted w
                  ++ [sendToGrafana JSON_stringify lc
                        (formatForLoki JSON_stringify nanoseconds lc batch)];
                acknowledged := acknowledged w |}
        else {| logger := set_logBuffer (logger w) batch;
                suspended := suspended w; posted := posted w;
                acknowledged := acknowledged w |})).
  { subst w'. unfold LoggerJs.log. cbv zeta. fold batch.
    cbn [logger set_logBuffer logBuffer bufferSize].
    destruct (bufferSize (logger w) <=? length batch)%nat; [ | reflexivity ].
    unfold LoggerJs.flush. rewrite Hlc.
    cbn [logger set_logBuffer logBuffer suspended posted acknowledged].
    subst batch. destruct (logBuffer (logger w) ++ _) eqn:Hb;
      [ now apply app_eq_nil in Hb as [_ ?] | reflexivity ]. }
  split; [ exact Hw | ].
  intros Hpos. rewrite Hw.
  destruct (Nat.leb_spec (bufferSize (logger w)) (length batch));
    simpl; lia.
Qed.

Lemma nonempty_batches_step (w : World) (e : event) :
  Forall (fun b => b <> []) (suspended w) /\
  (length (suspended w) <= length (posted w))%nat ->
  Forall (fun b => b <> []) (suspended (step w e)) /\
  (length (suspended (step w e)) <= length (posted (step w e)))%nat.
Proof.
  assert (Hflush : forall v,
             Forall (fun b => b <> []) (suspended v) /\
             (length (suspended v) <= length (posted v))%nat ->
             Forall (fun b => b <> []) (suspended (flush v)) /\
             (length (suspended (flush v)) <= length (posted (flush v)))%nat).
  { intros v [Hne Hlen]. unfold LoggerJs.flush.
    destruct (logBuffer (logger v)) as [ | r rs ] eqn:Hb; [ now split | ].
    destruct (logging_enabled config); [ | now split ].
    simpl. rewrite Forall_app, !length_app. simpl.
    repeat split; [ exact Hne | | lia ].
    constructor; [ discriminate | constructor ]. }
  intros [Hne Hlen].
  destruct e as [ level type message details now | | i o ]; simpl.
  - unfold LoggerJs.log. cbv zeta.
    match goal with
    | |- context [if ?c then _ else _] => destruct c
    end; [ apply Hflush | ]; now split.
  - apply Hflush. now split.
  - unfold flush_resume.
    destruct (suspended w !! i) as [ b | ] eqn:Hi; [ | now split ].
    assert (Hdel : Forall (fun b => b <> []) (delete i (suspended w)))
      by (apply Forall_delete; exact Hne).
    assert (Hl : (length (delete i (suspended w)) <= length (suspended w))%nat)
      by (rewrite length_delete by eauto; lia).
    destruct (send_throws o); simpl; split; try exact Hdel; lia.
Qed.

(** X3. No request is ever made for an empty buffer: from the start, after
    any events, every suspended flush holds a non-empty batch, and there are
    never more suspended flushes than requests made. *)
Theorem no_request_for_an_empty_batch (trace : list event) :
  let w := run boot trace in
  Forall (fun b => b <> []) (suspended w)
  /\ (length (suspended w) <= length (posted w))%nat.
Proof.
  intros w. subst w.
  assert (Hgen : forall trace v,
             Forall (fun b => b <> []) (suspended v) /\
             (length (suspended v) <= length (posted v))%nat ->
             Forall (fun b => b <> []) (suspended (run v trace)) /\
             (length (suspended (run v trace))
              <= length (posted (run v trace)))%nat).
  { clear trace. induction trace as [ | e trace IH ]; intros v Hv;
      [ exact Hv | ].
    change (run v (e :: trace)) with (run (step v e) trace).
    apply IH, nonempty_batches_step, Hv. }
  apply Hgen. simpl. split; [ constructor | lia ].
Qed.

End BufferFacts.

(** ** Grouping records into streams *)

Section StreamFacts.

Variable JSON_stringify : json -> string.
Variable nanoseconds : option json -> string.

Local Abbreviation formatForLoki := (formatForLoki JSON_stringify nanoseconds).
Local Abbreviation streamMap_of := (streamMap_of JSON_stringify nanoseconds).
Local Abbreviation labelKey_of := (labelKey_of JSON_stringify).
Local Abbreviation value_of := (value_of JSON_stringify nanoseconds).

Lemma formatForLoki_streamMap (lc : LoggingConfig) (logs : list json) :
  formatForLoki lc logs = List.map snd (streamMap_of lc logs).
Proof. reflexivity. Qed.

Lemma stream_at_push (k k' : string) (labels : json) (v : string * string)
    (sm : list (string * Stream)) :
  match stream_at k (stream_push k' labels v sm) with
  | Some s => values s
  | None => []
  end
  = match stream_at k sm with Some s => values s | None => [] end
    ++ (if String.eqb k k' then [v] else []).
Proof.
  induction sm as [ | [k2 s2] sm IH ]; simpl.
  - destruct (String.eqb k k'); reflexivity.
  - destruct (String.eqb k' k2) eqn:Hk2; simpl.
    + apply String.eqb_eq in Hk2. subst k2.
      destruct (String.eqb k k'); [ reflexivity | ].
      now rewrite app_nil_r.
    + destruct (String.eqb k k2) eqn:Hk.
      * apply String.eqb_eq in Hk. subst k2.
        rewrite String.eqb_sym in Hk2. rewrite Hk2. now rewrite app_nil_r.
      * exact IH.
Qed.

Lemma stream_push_keys (k : string) (labels : json) (v : string * string)
    (sm : list (string * Stream)) :
  List.map fst (stream_push k labels v sm)
  = if existsb (String.eqb k) (List.map fst sm) then List.map fst sm
    else List.map fst sm ++ [k].
Proof.
  induction sm as [ | [k2 s2] sm IH ]; simpl; [ reflexivity | ].
  destruct (String.eqb k k2); simpl; [ reflexivity | ].
  rewrite IH. now destruct (existsb (String.eqb k) (List.map fst sm)).
Qed.

Lemma existsb_eqb_In (k : string) (l : list string) :
  existsb (String.eqb k) l = true <-> In k l.
Proof.
  rewrite existsb_exists. split.
  - intros (x & Hx & Heq). apply String.eqb_eq in Heq. now subst.
  - intros Hin. exists k. split; [ exact Hin | apply String.eqb_refl ].
Qed.

Lemma stream_push_NoDup (k : string) (labels : json) (v : string * string)
    (sm : list (string * Stream)) :
  List.NoDup (List.map fst sm) ->
  List.NoDup (List.map fst (stream_push k labels v sm)).
Proof.
  intros Hnd. rewrite stream_push_keys.
  destruct (existsb (String.eqb k) (List.map fst sm)) eqn:Hk; [ exact Hnd | ].
  apply List.NoDup_app; [ exact Hnd | repeat constructor; easy | ].
  intros x Hx [ <- | [] ].
  apply existsb_eqb_In in Hx. congruence.
Qed.

Lemma stream_push_labels (R : string -> json -> Prop) (k : string)
    (labels : json) (v : string * string) (sm : list (string * Stream)) :
  R k labels ->
  Forall (fun ks => R (fst ks) (stream (snd ks))) sm ->
  Forall (fun ks => R (fst ks) (stream (snd ks)))
         (stream_push k labels v sm).
Proof.
  intros Hk Hsm. induction Hsm as [ | [k2 s2] sm H2 Hsm IH ]; simpl.
  - repeat constructor. exact Hk.
  - destruct (String.eqb k k2); constructor; assumption.
Qed.

Lemma stream_at_In (k : string) (s : Stream) (sm : list (string * Stream)) :
  List.NoDup (List.map fst sm) -> In (k, s) sm -> stream_at k sm = Some s.
Proof.
  induction sm as [ | [k2 s2] sm IH ]; simpl; [ tauto | ].
  intros Hnd [ Heq | Hin ]; inversion Hnd as [ | ? ? Hfresh Hnd' ]; subst.
  - injection Heq as -> ->. now rewrite String.eqb_refl.
  - destruct (String.eqb k k2) eqn:Hk; [ | now apply IH ].
    apply String.eqb_eq in Hk. subst k2. exfalso. apply Hfresh.
    apply in_map_iff. now exists (k, s).
Qed.

(** What the loop of [formatForLoki] has built after some more logs. *)
Lemma streams_after (lc : LoggingConfig) (logs : list json)
    (sm0 : list (string * Stream)) :
  let push streamMap log :=
    stream_push (labelKey_of lc log) (labels_of lc log) (value_of log)
                streamMap in
  let sm := fold_left push logs sm0 in
  (forall k,
      match stream_at k sm with Some s => values s | None => [] end
      = match stream_at k sm0 with Some s => values s | None => [] end
        ++ List.map value_of
             (List.filter (fun log => String.eqb (labelKey_of lc log) k) logs))
  /\ (List.NoDup (List.map fst sm0) -> List.NoDup (List.map fst sm))
  /\ (forall k,
        In k (List.map fst sm)
        <-> In k (List.map fst sm0)
            \/ exists log, In log logs /\ labelKey_of lc log = k)
  /\ (forall R : string -> json -> Prop,
        (forall log, In log logs -> R (labelKey_of lc log) (labels_of lc log)) ->
        Forall (fun ks => R (fst ks) (stream (snd ks))) sm0 ->
        Forall (fun ks => R (fst ks) (stream (snd ks))) sm)
  /\ length (concat (List.map (fun ks => values (snd ks)) sm))
     = (length (concat (List.map (fun ks => values (snd ks)) sm0))
        + length logs)%nat.
Proof.
  intros push. revert sm0.
  induction logs as [ | log logs IH ]; intros sm0; cbv zeta.
  - simpl. repeat split.
    + intros k. now rewrite app_nil_r.
    + tauto.
    + tauto.
    + intros [ H | (log & [] & _) ]. exact H.
    + tauto.
    + lia.
  - change (fold_left push (log :: logs) sm0)
      with (fold_left push logs (push sm0 log)).
    destruct (IH (push sm0 log)) as (Hv & Hnd & Hk & Hl & Hc).
    repeat split.
    + intros k. rewrite Hv. unfold push at 1. rewrite stream_at_push.
      rewrite <- app_assoc. f_equal. simpl.
      rewrite (String.eqb_sym k).
      now destruct (String.eqb (labelKey_of lc log) k).
    + intros H0. apply Hnd. unfold push. now apply stream_push_NoDup.
    + intros Hin. apply Hk in Hin as [ Hin | (l & Hl' & Hkey) ].
      * unfold push in Hin. rewrite stream_push_keys in Hin.
        destruct (existsb _ _); [ now left | ].
        apply in_app_or in Hin as [ Hin | [ <- | [] ] ]; [ now left | ].
        right. exists log. split; [ now left | reflexivity ].
      * right. exists l. split; [ now right | exact Hkey ].
    + intros Hin. apply Hk. unfold push at 1. rewrite stream_push_keys.
      destruct (existsb (String.eqb (labelKey_of lc log))
                        (List.map fst sm0)) eqn:Hex.
      * destruct Hin as [ Hin | (l & [ <- | Hl' ] & Hkey) ].
        -- now left.
        -- left. subst k. now apply existsb_eqb_In.
        -- right. now exists l.
      * destruct Hin as [ Hin | (l & [ <- | Hl' ] & Hkey) ].
        -- left. apply in_or_app. now left.
        -- left. apply in_or_app. right. subst k. now left.
        -- right. now exists l.
    + intros R HR H0. apply Hl.
      * intros l Hl'. apply HR. now right.
      * unfold push. apply stream_push_labels; [ | exact H0 ].
        apply HR. now left.
    + rewrite Hc. simpl length.
      assert (Hone : forall k labels v sm1,
                 length (concat (List.map (fun ks => values (snd ks))
                                          (stream_push k labels v sm1)))
                 = S (length (concat (List.map (fun ks => values (snd ks))
                                               sm1)))).
      { clear. intros k labels v sm1.
        induction sm1 as [ | [k2 s2] sm1 IH ]; simpl; [ reflexivity | ].
        destruct (String.eqb k k2); simpl; rewrite ?length_app; simpl;
          [ lia | rewrite IH; lia ]. }
      unfold push. rewrite Hone. lia.
Qed.

(** X4. [formatForLoki] groups without loss and in order: the streams have
    pairwise distinct label keys; the values of each stream are the values
    of exactly the records with its label key, in the order in which they
    were logged, and there is at least one; its labels are those of one of
    these records; and every record's label key has a stream. *)
Theorem formatForLoki_groups_in_order (lc : LoggingConfig)
    (logs : list json) :
  let sm := streamMap_of lc logs in
  formatForLoki lc logs = List.map snd sm
  /\ List.NoDup (List.map fst sm)
  /\ (forall k s,
        In (k, s) sm ->
        values s
        = List.map value_of
            (List.filter (fun log => String.eqb (labelKey_of lc log) k) logs)
        /\ values s <> []
        /\ exists log,
             In log logs /\ labelKey_of lc log = k
             /\ stream s = labels_of lc log)
  /\ (forall log, In log logs -> In (labelKey_of lc log) (List.map fst sm)).
Proof.
  intros sm.
  destruct (streams_after lc logs []) as (Hv & Hnd & Hk & Hl & _).
  fold (streamMap_of lc logs) in Hv, Hnd, Hk, Hl. fold sm in Hv, Hnd, Hk, Hl.
  specialize (Hnd (List.NoDup_nil _)).
  split; [ reflexivity | ]. split; [ exact Hnd | ]. split.
  - intros k s Hin.
    assert (Hval : values s
                   = List.map value_of
                       (List.filter
                          (fun log => String.eqb (labelKey_of lc log) k) logs)).
    { specialize (Hv k). rewrite (stream_at_In k s sm Hnd Hin) in Hv.
      exact Hv. }
    split; [ exact Hval | ]. split.
    + assert (Hkin : In k (List.map fst sm))
        by (apply in_map_iff; now exists (k, s)).
      apply Hk in Hkin as [ [] | (log & Hlog & Hkey) ].
      rewrite Hval. intros Hnil. apply map_eq_nil in Hnil.
      assert (Hf : In log (List.filter
                             (fun log => String.eqb (labelKey_of lc log) k)
                             logs))
        by (apply filter_In; split; [ exact Hlog | now apply String.eqb_eq ]).
      rewrite Hnil in Hf. destruct Hf.
    + specialize (Hl (fun k labels =>
                        exists log, In log logs /\ labelKey_of lc log = k
                                    /\ labels = labels_of lc log)).
      cbv beta in Hl.
      assert (Hall : Forall
                (fun ks => exists log, In log logs
                             /\ labelKey_of lc log = fst ks
                             /\ stream (snd ks) = labels_of lc log) sm).
      { apply Hl; [ | constructor ]. intros log Hlog. now exists log. }
      rewrite List.Forall_forall in Hall. exact (Hall (k, s) Hin).
  - intros log Hlog. apply Hk. right. now exists log.
Qed.

(** X5. [formatForLoki] neither drops nor repeats a record: the streams
    hold, together, as many values as there are records; in particular no
    records give no streams. *)
Theorem formatForLoki_keeps_every_record (lc : LoggingConfig)
    (logs : list json) :
  length (concat (List.map values (formatForLoki lc logs))) = length logs
  /\ (logs = [] -> formatForLoki lc logs = []).
Proof.
  split.
  - destruct (streams_after lc logs []) as (_ & _ & _ & _ & Hc).
    cbv zeta in Hc. simpl in Hc.
    rewrite formatForLoki_streamMap, List.map_map. exact Hc.
  - intros ->. reflexivity.
Qed.

End StreamFacts.

(** ** Which keys are sensitive *)

Section KeyFacts.

Lemma append_cons (c : Ascii.ascii) (a b : string) :
  String.append (String c a) b = String c (String.append a b).
Proof. reflexivity. Qed.

Lemma append_empty (b : string) : String.append EmptyString b = b.
Proof. reflexivity. Qed.

Lemma prefix_iff_app (a s : string) :
  String.prefix a s = true <-> exists b, s = String.append a b.
Proof.
  revert s. induction a as [ | c a IH ]; intros s.
  - split; [ intros _; now exists s | intros _; now destruct s ].
  - destruct s as [ | d s ]; simpl.
    + split; [ discriminate | intros [b Hb]; discriminate Hb ].
    + destruct (Ascii.ascii_dec c d) as [ -> | Hne ].
      * rewrite IH. split; intros [b Hb]; exists b;
          rewrite append_cons in *; congruence.
      * split; [ discriminate | ].
        intros [b Hb]. rewrite append_cons in Hb. congruence.
Qed.

Lemma includes_iff_app (s sub : string) :
  includes s sub = true
  <-> exists a b, s = String.append a (String.append sub b).
Proof.
  split.
  - induction s as [ | c s IH ]; cbn [includes]; rewrite orb_true_iff.
    + intros [ Hp | Hf ]; [ | discriminate ].
      apply prefix_iff_app in Hp as [b Hb]. now exists EmptyString, b.
    + intros [ Hp | Hrest ].
      * apply prefix_iff_app in Hp as [b Hb]. now exists EmptyString, b.
      * destruct (IH Hrest) as (a & b & ->). now exists (String c a), b.
  - intros (a & b & ->). induction a as [ | c a IH ].
    + rewrite append_empty.
      assert (Hp : String.prefix sub (String.append sub b) = true)
        by (apply prefix_iff_app; now exists b).
      destruct (String.append sub b); cbn [includes]; now rewrite Hp.
    + rewrite append_cons. cbn [includes]. rewrite IH. apply orb_true_r.
Qed.

Lemma append_assoc (a b c : string) :
  String.append (String.append a b) c = String.append a (String.append b c).
Proof.
  induction a as [ | x a IH ]; [ reflexivity | ].
  rewrite !append_cons. congruence.
Qed.

Lemma toLowerCase_app (a b : string) :
  toLowerCase (String.append a b)
  = String.append (toLowerCase a) (toLowerCase b).
Proof.
  induction a as [ | c a IH ]; [ reflexivity | ].
  rewrite append_cons. simpl. rewrite append_cons. congruence.
Qed.

Lemma lower_char_idem (c : Ascii.ascii) :
  lower_char (lower_char c) = lower_char c.
Proof. destruct c as [[] [] [] [] [] [] [] []]; reflexivity. Qed.

Lemma toLowerCase_idem (s : string) :
  toLowerCase (toLowerCase s) = toLowerCase s.
Proof.
  induction s as [ | c s IH ]; simpl; [ reflexivity | ].
  now rewrite lower_char_idem, IH.
Qed.

(** X6. A key is sensitive exactly when its lower-case form contains one of
    the six words somewhere; so the test ignores the case of the key, and a
    key stays sensitive whatever is written before or after it (as in
    [hasAuth] or [author]). *)
Theorem is_sensitive_iff_contains_a_word (key : string) :
  (is_sensitive key = true
   <-> exists field a b,
         In field sensitiveFields
         /\ toLowerCase key = String.append a (String.append field b))
  /\ is_sensitive (toLowerCase key) = is_sensitive key
  /\ (forall before after,
        is_sensitive key = true ->
        is_sensitive (String.append before (String.append key after)) = true).
Proof.
  assert (Hiff : forall k,
             is_sensitive k = true
             <-> exists field a b,
                   In field sensitiveFields
                   /\ toLowerCase k
                      = String.append a (String.append field b)).
  { intros k. unfold is_sensitive. rewrite existsb_exists. split.
    - intros (field & Hin & Hinc).
      apply includes_iff_app in Hinc as (a & b & Hk). now exists field, a, b.
    - intros (field & a & b & Hin & Hk). exists field. split; [ exact Hin | ].
      apply includes_iff_app. now exists a, b. }
  split; [ apply Hiff | ]. split.
  - unfold is_sensitive. now rewrite toLowerCase_idem.
  - intros before after Hk. apply Hiff in Hk as (field & a & b & Hin & Hk).
    apply Hiff. exists field, (String.append (toLowerCase before) a),
                       (String.append b (toLowerCase after)).
    split; [ exact Hin | ].
    rewrite !toLowerCase_app, Hk.
    rewrite !append_assoc. reflexivity.
Qed.

End KeyFacts.

(** ** Redaction of what is buffered *)

Section RedactionFacts.

Lemma fully_redacted_obj (fields : list (string * json)) :
  fully_redacted (JObj fields) = forallb member_redacted fields.
Proof.
  simpl. induction fields as [ | [k x] fields IH ]; simpl; [ reflexivity | ].
  now rewrite IH.
Qed.

Lemma fully_redacted_arr (xs : list json) :
  fully_redacted (JArr xs) = forallb fully_redacted xs.
Proof.
  simpl. induction xs as [ | x xs IH ]; simpl; [ reflexivity | ].
  now rewrite IH.
Qed.

Lemma obj_set_redacted (k : string) (x : json) (fields : list (string * json)) :
  member_redacted (k, x) = true ->
  forallb member_redacted fields = true ->
  forallb member_redacted (obj_set k x fields) = true.
Proof.
  intros Hx. induction fields as [ | [k' y] fields IH ]; simpl.
  - now rewrite Hx.
  - intros [Hy Hrest]%andb_prop.
    destruct (String.eqb k k') eqn:Hk; simpl.
    + apply String.eqb_eq in Hk. subst k'. now rewrite Hx, Hrest.
    + now rewrite Hy, IH.
Qed.

Lemma obj_assign_redacted (target props : list (string * json)) :
  forallb member_redacted target = true ->
  forallb member_redacted props = true ->
  forallb member_redacted (obj_assign target props) = true.
Proof.
  unfold obj_assign. revert target.
  induction props as [ | [k x] props IH ]; intros target Ht Hp; simpl;
    [ exact Ht | ].
  simpl in Hp. apply andb_prop in Hp as [Hx Hp].
  apply IH; [ | exact Hp ]. now apply obj_set_redacted.
Qed.

Lemma indexed_redacted (xs : list json) (i : nat) :
  forallb fully_redacted xs = true ->
  forallb member_redacted (indexed i xs) = true.
Proof.
  revert i. induction xs as [ | x xs IH ]; intros i; simpl; [ reflexivity | ].
  intros [Hx Hxs]%andb_prop. unfold member_redacted at 1. simpl.
  now rewrite index_key_plain, Hx, IH.
Qed.

Lemma chars_redacted (s : string) : forallb fully_redacted (chars s) = true.
Proof. induction s as [ | c s IH ]; simpl; [ reflexivity | exact IH ]. Qed.

Lemma own_props_redacted (v : json) :
  fully_redacted v = true -> forallb member_redacted (own_props v) = true.
Proof.
  destruct v as [ | b | x | t | xs | fields ]; try reflexivity.
  - intros _. apply indexed_redacted, chars_redacted.
  - rewrite fully_redacted_arr. apply indexed_redacted.
  - now rewrite fully_redacted_obj.
Qed.

Lemma logEntry_redacted (level type message : json) (details : option json)
    (now : string) :
  fully_redacted level = true ->
  fully_redacted type = true ->
  fully_redacted message = true ->
  fully_redacted (logEntry level type message details now) = true.
Proof.
  intros Hl Ht Hm. unfold logEntry. rewrite fully_redacted_obj.
  apply obj_assign_redacted; [ | reflexivity ].
  apply obj_assign_redacted.
  - simpl. unfold member_redacted. simpl.
    change (is_sensitive "level") with false.
    change (is_sensitive "type") with false.
    change (is_sensitive "message") with false.
    now rewrite Hl, Ht, Hm.
  - apply own_props_redacted, fully_redacted_sanitize.
Qed.

(** X7. Whatever the details are, no sensitive key reaches the buffer or
    the backend unredacted: when the level, type and message of every [log]
    call are themselves free of sensitive keys (strings are), every record
    that is in the buffer, in a suspended flush or acknowledged holds the
    marker under each of its sensitive keys, at any depth. *)
Theorem every_held_record_is_redacted (JSON_stringify : json -> string)
    (nanoseconds : option json -> string) (config : Config)
    (trace : list event) :
  forallb plain_header trace = true ->
  Forall (fun record => fully_redacted record = true)
         (holdings (run JSON_stringify nanoseconds config boot trace)).
Proof.
  intros Hplain.
  assert (Hlogged : Forall (fun record => fully_redacted record = true)
                           (logged trace)).
  { induction trace as [ | e trace IH ]; [ constructor | ].
    simpl in Hplain. apply andb_prop in Hplain as [He Hplain].
    unfold logged. simpl. apply Forall_app. split; [ | now apply IH ].
    destruct e as [ level type message details now | | ]; [ | constructor.. ].
    simpl in He. apply andb_prop in He as [[Hl Ht]%andb_prop Hm].
    repeat constructor. now apply logEntry_redacted. }
  eapply Permutation_Forall; [ | exact Hlogged ].
  symmetry. rewrite holdings_run. reflexivity.
Qed.

(** X8. The record of an HTTP exchange: [hasAuth] is a sensitive key, so
    the record never tells whether the request was authenticated, it holds
    the marker there; the request and response bodies are recorded
    sanitized; a body that was never captured leaves no key; level and type
    are [info] and [http]; and the record as a whole is redacted. *)
Theorem httpLogger_record (x : Exchange) (now : string) :
  exists record,
    entry_of (httpLogger_finish x now) = Some record
    /\ prop "hasAuth" record = Some (JStr REDACTED)
    /\ prop "requestBody" record
       = option_map (fun b => recursiveSanitize (clone b)) (http_requestBody x)
    /\ prop "responseBody" record
       = option_map (fun b => recursiveSanitize (clone b)) (http_responseBody x)
    /\ prop "level" record = Some (JStr "info")
    /\ prop "type" record = Some (JStr "http")
    /\ prop "timestamp" record = Some (JStr now)
    /\ fully_redacted record = true.
Proof.
  eexists. split; [ reflexivity | ].
  split; [ | split; [ | split; [ | split; [ | split; [ | split ] ] ] ] ];
    try (destruct x as [m p sc d a [rb|] [sb|] [ip|]]; reflexivity).
  now apply logEntry_redacted.
Qed.

Lemma sanitize_again (v : json) :
  recursiveSanitize (clone (sanitize v)) = recursiveSanitize (clone v).
Proof.
  unfold sanitize. destruct (truthy v); simpl; [ | reflexivity ].
  now rewrite clone_recursiveSanitize, clone_idem, recursiveSanitize_idem.
Qed.

(** X9. The database and factory helpers sanitize their payloads before
    [log] sanitizes the details once more; the second pass changes nothing:
    the record holds each payload sanitized once. Its level is [error]
    exactly when an error is passed, and an absent payload or error leaves
    no key. *)
Theorem payload_helpers_record (query duration statusCode : json)
    (params requestBody responseBody error : option json) (now : string) :
  (exists record,
      entry_of (logDbQuery query params duration error now) = Some record
      /\ prop "params" record
         = option_map (fun p => recursiveSanitize (clone p)) params
      /\ prop "error" record
         = option_map (fun p => recursiveSanitize (clone p)) error
      /\ prop "level" record
         = Some (JStr (if given error then "error" else "info"))
      /\ prop "type" record = Some (JStr "database")
      /\ fully_redacted record = true)
  /\ (exists record,
        entry_of (logFactoryRequest requestBody responseBody statusCode
                                    duration error now) = Some record
        /\ prop "requestBody" record
           = option_map (fun p => recursiveSanitize (clone p)) requestBody
        /\ prop "responseBody" record
           = option_map (fun p => recursiveSanitize (clone p)) responseBody
        /\ prop "level" record
           = Some (JStr (if given error then "error" else "info"))
        /\ prop "type" record = Some (JStr "factory")
        /\ fully_redacted record = true).
Proof.
  split; eexists; (split; [ reflexivity | ]).
  - split; [ | split; [ | split; [ | split ] ] ].
    + destruct params as [ p | ], error as [ e | ]; try reflexivity;
        (simpl; now rewrite sanitize_again).
    + destruct params as [ p | ], error as [ e | ]; reflexivity.
    + destruct params as [ p | ], error as [ e | ]; reflexivity.
    + destruct params as [ p | ], error as [ e | ]; reflexivity.
    + destruct error; now apply logEntry_redacted.
  - split; [ | split; [ | split; [ | split ] ] ].
    + destruct requestBody as [ p | ], responseBody as [ q | ],
               error as [ e | ]; try reflexivity;
        (simpl; now rewrite sanitize_again).
    + destruct requestBody as [ p | ], responseBody as [ q | ],
               error as [ e | ]; try reflexivity;
        (simpl; now rewrite sanitize_again).
    + destruct requestBody as [ p | ], responseBody as [ q | ],
               error as [ e | ]; reflexivity.
    + destruct requestBody as [ p | ], responseBody as [ q | ],
               error as [ e | ]; reflexivity.
    + destruct error; now apply logEntry_redacted.
Qed.

End RedactionFacts.

(** ** The aggregator and the exporter, beyond the claims *)

Section ExporterFacts.

Variable Number_toString : float -> string.
Variable config : Config.

Local Abbreviation sendMetricsToGrafana :=
  (sendMetricsToGrafana Number_toString config).
Local Abbreviation perform := (perform Number_toString config).
Local Abbreviation perform_all := (perform_all Number_toString config).
Local Abbreviation build := (build Number_toString).

(** X10. Every auth attempt is counted as exactly one success or one
    failure: after any calls from a fresh aggregator the attempts are the
    successes plus the failures. *)
Theorem auth_attempts_split (calls : list call) :
  let m := aggregator (perform_all start calls) in
  authAttempts m = authSuccesses m + authFailures m.
Proof.
  intros m. subst m.
  assert (Hgen : forall calls w,
             authAttempts (aggregator w)
             = authSuccesses (aggregator w) + authFailures (aggregator w) ->
             authAttempts (aggregator (perform_all w calls))
             = authSuccesses (aggregator (perform_all w calls))
               + authFailures (aggregator (perform_all w calls))).
  { clear. induction calls as [ | c calls IH ]; intros w Hw; [ exact Hw | ].
    change (perform_all w (c :: calls)) with (perform_all (perform w c) calls).
    apply IH.
    destruct c as [ method | id | success | success latency pizzaCount amount
                  | latency | os | ].
    - exact Hw.
    - simpl. unfold trackActiveUser.
      destruct id as [ u | ]; [ destruct (userId_truthy u) | ]; exact Hw.
    - simpl. destruct success; lia.
    - exact Hw.
    - exact Hw.
    - destruct (counters_perform_export Number_toString config w (Export os) I)
        as [Hc _].
      unfold counters in Hc. injection Hc as _ _ _ _ _ H1 H2 H3 _ _ _.
      cbn [MetricsJs.perform] in *. lia.
    - destruct (counters_perform_export Number_toString config w ExportSettled I)
        as [Hc _].
      unfold counters in Hc. injection Hc as _ _ _ _ _ H1 H2 H3 _ _ _.
      cbn [MetricsJs.perform] in *. lia. }
  apply Hgen. reflexivity.
Qed.

Lemma trackActiveUser_users (id : option userId) (m : Metrics) :
  activeUsers (trackActiveUser id m)
  = match id with
    | Some u => if userId_truthy u then {[u]} ∪ activeUsers m
                else activeUsers m
    | None => activeUsers m
    end.
Proof.
  unfold trackActiveUser.
  destruct id as [ u | ]; [ destruct (userId_truthy u) | ]; reflexivity.
Qed.

(** X11. An id counts once however often it is tracked: tracking it again
    changes nothing, and the first tracking of an id that passes
    [if (userId)] raises the cardinality by one when the id is new and not
    at all when it is known. *)
Theorem trackActiveUser_counts_once (u : userId) (n : nat) (m : Metrics) :
  Nat.iter (S n) (trackActiveUser (Some u)) m = trackActiveUser (Some u) m
  /\ (userId_truthy u = true ->
      u ∈ activeUsers (trackActiveUser (Some u) m)
      /\ size (activeUsers (trackActiveUser (Some u) m))
         = if decide (u ∈ activeUsers m) then size (activeUsers m)
           else S (size (activeUsers m)))
  /\ (userId_truthy u = false -> trackActiveUser (Some u) m = m).
Proof.
  assert (Hidem : trackActiveUser (Some u) (trackActiveUser (Some u) m)
                  = trackActiveUser (Some u) m).
  { unfold trackActiveUser. destruct (userId_truthy u); [ | reflexivity ].
    simpl. f_equal. set_solver. }
  split.
  - induction n as [ | n IH ]; [ reflexivity | ].
    rewrite Nat.iter_succ, IH. exact Hidem.
  - split.
    + intros Hu. rewrite trackActiveUser_users, Hu. split; [ set_solver | ].
      destruct (decide (u ∈ activeUsers m)) as [ Hin | Hnot ].
      * f_equal. set_solver.
      * rewrite size_union by set_solver. now rewrite size_singleton.
    + intros Hu. unfold trackActiveUser. now rewrite Hu.
Qed.

Lemma perform_tracking (w : Exporter) (c : call) :
  is_tracking c = true ->
  exporting (perform w c) = exporting w /\ sent (perform w c) = sent w.
Proof. destruct c; try discriminate; intros _; now split. Qed.

Lemma perform_samples (w : Exporter) (c : call) :
  is_tracking c = true ->
  serviceLatencies (aggregator (perform w c))
  = serviceLatencies (aggregator w) ++ service_samples [c]
  /\ pizzaLatencies (aggregator (perform w c))
     = pizzaLatencies (aggregator w) ++ pizza_samples [c].
Proof.
  destruct c as [ method | id | success | success latency pizzaCount amount
                | latency | os | ]; try discriminate; intros _;
    unfold service_samples, pizza_samples; simpl; rewrite ?app_nil_r;
    try (split; reflexivity).
  - unfold trackActiveUser.
    destruct id as [ u | ]; [ destruct (userId_truthy u) | ]; now split.
  - split; [ reflexivity | ].
    destruct latency as [ l | ]; [ destruct (number_truthy l) | ];
      simpl; now rewrite ?app_nil_r.
Qed.

Lemma samples_cons (c : call) (calls : list call) :
  service_samples (c :: calls) = service_samples [c] ++ service_samples calls
  /\ pizza_samples (c :: calls) = pizza_samples [c] ++ pizza_samples calls.
Proof.
  unfold service_samples, pizza_samples. simpl. now rewrite !app_nil_r.
Qed.

Lemma perform_all_tracking (calls : list call) (w : Exporter) :
  forallb is_tracking calls = true ->
  let w' := perform_all w calls in
  exporting w' = exporting w
  /\ sent w' = sent w
  /\ serviceLatencies (aggregator w')
     = serviceLatencies (aggregator w) ++ service_samples calls
  /\ pizzaLatencies (aggregator w')
     = pizzaLatencies (aggregator w) ++ pizza_samples calls.
Proof.
  revert w. induction calls as [ | c calls IH ]; intros w Hall; cbv zeta.
  - simpl. now rewrite !app_nil_r.
  - simpl in Hall. apply andb_prop in Hall as [Hc Hall].
    change (perform_all w (c :: calls)) with (perform_all (perform w c) calls).
    destruct (IH (perform w c) Hall) as (He & Hs & Hsl & Hpl).
    destruct (perform_tracking w c Hc) as [He' Hs'].
    destruct (perform_samples w c Hc) as [Hsl' Hpl'].
    destruct (samples_cons c calls) as [-> ->].
    rewrite He, Hs, Hsl, Hpl, He', Hs', Hsl', Hpl'.
    now rewrite <- !app_assoc.
Qed.

(** X12. Samples recorded while an export waits for its post are lost: the
    payload was built before they arrived, and when the export resumes it
    empties both lists whatever they hold by then. The counters moved in the
    meantime are kept. *)
Theorem samples_during_an_export_are_dropped (mc : MetricsConfig)
    (os : OsSample) (during : list call) (w : Exporter) :
  metrics_enabled config = Some mc ->
  forallb is_tracking during = true ->
  let w1 := sendMetricsToGrafana os w in
  let w2 := perform_all w1 during in
  let w3 := export_resume w2 in
  sent w3
  = sent w
    ++ [{| post_url := metrics_url mc;
           post_authorization := "Bearer " +:+ metrics_apiKey mc;
           post_body := toString (build mc os (aggregator w)) |}]
  /\ serviceLatencies (aggregator w2)
     = serviceLatencies (aggregator w) ++ service_samples during
  /\ pizzaLatencies (aggregator w2)
     = pizzaLatencies (aggregator w) ++ pizza_samples during
  /\ serviceLatencies (aggregator w3) = []
  /\ pizzaLatencies (aggregator w3) = []
  /\ counters (aggregator w3) = counters (aggregator w2)
  /\ exporting w3 = exporting w.
Proof.
  intros Hmc Hdur w1 w2 w3.
  destruct (perform_all_tracking during w1 Hdur) as (He & Hs & Hsl & Hpl).
  fold w2 in He, Hs, Hsl, Hpl.
  assert (H1 : w1 = {| aggregator := aggregator w;
                       exporting := S (exporting w);
                       sent :=
                         sent w
                         ++ [{| post_url := metrics_url mc;
                                post_authorization :=
                                  "Bearer " +:+ metrics_apiKey mc;
                                post_body :=
                                  toString (build mc os (aggregator w)) |}] |})
    by (apply sendMetricsToGrafana_enabled; exact Hmc).
  rewrite H1 in He, Hs, Hsl, Hpl. simpl in He, Hs, Hsl, Hpl.
  subst w3. unfold export_resume. rewrite He. simpl.
  repeat split; assumption.
Qed.

Lemma sent_perform (w : Exporter) (c : call) :
  length (sent (perform w c))
  = (length (sent w)
     + match c, metrics_enabled config with
       | Export _, Some _ => 1
       | _, _ => 0
       end)%nat.
Proof.
  destruct c as [ method | id | success | success latency pizzaCount amount
                | latency | os | ]; simpl; try lia.
  - destruct (metrics_enabled config) as [ mc | ] eqn:Hmc.
    + rewrite (sendMetricsToGrafana_enabled Number_toString config mc)
        by exact Hmc.
      simpl. rewrite length_app. simpl. lia.
    + unfold MetricsJs.sendMetricsToGrafana. rewrite Hmc. lia.
  - unfold export_resume. destruct (exporting w); simpl; lia.
Qed.

(** X13. One post per export, none without a destination: after any calls
    from a fresh aggregator the posts made are as many as the timer's
    exports when the destination is configured, and none otherwise; each
    goes to the configured address with the configured key. *)
Theorem one_post_per_export (calls : list call) :
  let w := perform_all start calls in
  length (sent w)
  = match metrics_enabled config with
    | Some _ => exports calls
    | None => 0%nat
    end
  /\ (forall mc,
        metrics_enabled config = Some mc ->
        Forall (fun p => post_url p = metrics_url mc
                         /\ post_authorization p
                            = "Bearer " +:+ metrics_apiKey mc) (sent w)).
Proof.
  intros w. subst w. split.
  - assert (Hgen : forall calls w,
               length (sent (perform_all w calls))
               = (length (sent w)
                  + match metrics_enabled config with
                    | Some _ => exports calls
                    | None => 0
                    end)%nat).
    { clear. induction calls as [ | c calls IH ]; intros w.
      - simpl. unfold exports. simpl. destruct (metrics_enabled config); lia.
      - change (perform_all w (c :: calls))
          with (perform_all (perform w c) calls).
        rewrite IH, sent_perform. unfold exports. simpl.
        destruct (metrics_enabled config), c; simpl; lia. }
    rewrite Hgen. simpl. reflexivity.
  - intros mc Hmc.
    assert (Hgen : forall calls w,
               Forall (fun p => post_url p = metrics_url mc
                                /\ post_authorization p
                                   = "Bearer " +:+ metrics_apiKey mc) (sent w) ->
               Forall (fun p => post_url p = metrics_url mc
                                /\ post_authorization p
                                   = "Bearer " +:+ metrics_apiKey mc)
                      (sent (perform_all w calls))).
    { clear calls. induction calls as [ | c calls IH ]; intros w Hw;
        [ exact Hw | ].
      change (perform_all w (c :: calls))
        with (perform_all (perform w c) calls).
      apply IH.
      destruct c as [ method | id | success | success latency pizzaCount amount
                    | latency | os | ]; try exact Hw.
      - simpl. rewrite (sendMetricsToGrafana_enabled Number_toString config mc)
          by exact Hmc.
        simpl. apply Forall_app. split; [ exact Hw | ].
        repeat constructor.
      - simpl. unfold export_resume. now destruct (exporting w). }
    apply Hgen. constructor.
Qed.

(** X14. Without a configured destination the latency lists are never
    emptied: after any calls from a fresh aggregator nothing has been posted
    and the two lists hold every sample recorded since the start, in
    order. *)
Theorem unconfigured_exporter_keeps_samples (calls : list call) :
  metrics_enabled config = None ->
  let w := perform_all start calls in
  sent w = []
  /\ serviceLatencies (aggregator w) = service_samples calls
  /\ pizzaLatencies (aggregator w) = pizza_samples calls.
Proof.
  intros Hoff w. subst w.
  assert (Hgen : forall calls w,
             exporting w = 0%nat ->
             let w' := perform_all w calls in
             exporting w' = 0%nat
             /\ sent w' = sent w
             /\ serviceLatencies (aggregator w')
                = serviceLatencies (aggregator w) ++ service_samples calls
             /\ pizzaLatencies (aggregator w')
                = pizzaLatencies (aggregator w) ++ pizza_samples calls).
  { clear calls. induction calls as [ | c calls IH ]; intros w Hw; cbv zeta.
    - simpl. now rewrite !app_nil_r.
    - change (perform_all w (c :: calls))
        with (perform_all (perform w c) calls).
      destruct (samples_cons c calls) as [-> ->].
      destruct (is_tracking c) eqn:Hc.
      + destruct (perform_tracking w c Hc) as [He Hs].
        destruct (perform_samples w c Hc) as [Hsl Hpl].
        destruct (IH (perform w c)) as (He' & Hs' & Hsl' & Hpl');
          [ congruence | ].
        rewrite He', Hs', Hsl', Hpl', Hs, Hsl, Hpl.
        now rewrite <- !app_assoc.
      + assert (Hsame : perform w c = w).
        { destruct c; try discriminate Hc; simpl.
          - unfold MetricsJs.sendMetricsToGrafana. now rewrite Hoff.
          - unfold export_resume. now rewrite Hw. }
        rewrite Hsame.
        destruct (IH w Hw) as (He' & Hs' & Hsl' & Hpl').
        rewrite He', Hs', Hsl', Hpl'.
        destruct c; try discriminate Hc; repeat split; reflexivity. }
  destruct (Hgen calls start eq_refl) as (_ & Hs & Hsl & Hpl).
  repeat split; assumption.
Qed.

(** X15. The payload names a latency gauge exactly when samples exist: with
    an empty list the average (0/0) is never computed and no line for it is
    written; the other fourteen lines are always there. *)
Theorem latency_lines_need_samples (mc : MetricsConfig) (os : OsSample)
    (m : Metrics) :
  let lines := builder_metrics (build mc os m) in
  existsb (String.prefix "service_latency_ms") lines
  = match serviceLatencies m with [] => false | _ :: _ => true end
  /\ existsb (String.prefix "pizza_creation_latency_ms") lines
     = match pizzaLatencies m with [] => false | _ :: _ => true end
  /\ length lines
     = (14 + match serviceLatencies m with [] => 0 | _ :: _ => 1 end
        + match pizzaLatencies m with [] => 0 | _ :: _ => 1 end)%nat.
Proof.
  intros lines. subst lines. unfold MetricsJs.build. cbv zeta.
  destruct (serviceLatencies m), (pizzaLatencies m);
    cbn [addMetric builder_metrics source new_MetricsBuilder app];
    repeat split; reflexivity.
Qed.

End ExporterFacts.

(** ** The request middleware *)

Section MiddlewareFacts.

(** X16. What one tracked request does to the aggregator, from its entry to
    its [res.json]: the total rises by one; an auth attempt is counted
    exactly when the path contains [/api/auth] somewhere and the method is
    POST or PUT, as a success when the status is 200 and as a failure
    otherwise; one latency sample, the elapsed time, is appended; the pizza
    counters and the pizza samples are untouched. *)
Theorem requestTracker_effect (req : Tracked) (statusCode : Z)
    (startTime now : float) (m : Metrics) :
  let m' :=
    requestTracker_json req statusCode startTime now
      (requestTracker_enter req m) in
  totalRequests m' = totalRequests m + 1
  /\ (is_auth_attempt req = true
      <-> (exists a b,
              tracked_path req
              = String.append a (String.append "/api/auth" b))
          /\ (tracked_method req = "POST" \/ tracked_method req = "PUT"))
  /\ authAttempts m'
     = authAttempts m + (if is_auth_attempt req then 1 else 0)
  /\ authSuccesses m'
     = authSuccesses m
       + (if is_auth_attempt req && (statusCode =? 200) then 1 else 0)
  /\ authFailures m'
     = authFailures m
       + (if is_auth_attempt req && negb (statusCode =? 200) then 1 else 0)
  /\ serviceLatencies m'
     = serviceLatencies m ++ [PrimFloat.sub now startTime]
  /\ activeUsers m' = activeUsers (trackActiveUser (tracked_user req) m)
  /\ (pizzasSold m', pizzaCreationFails m', revenue m', pizzaLatencies m')
     = (pizzasSold m, pizzaCreationFails m, revenue m, pizzaLatencies m).
Proof.
  intros m'. subst m'.
  split; [ | split ].
  - unfold requestTracker_json, requestTracker_enter, trackActiveUser.
    destruct (is_auth_attempt req), (tracked_user req) as [ u | ];
      [ destruct (userId_truthy u) | | destruct (userId_truthy u) | ];
      reflexivity.
  - unfold is_auth_attempt. rewrite andb_true_iff, orb_true_iff.
    rewrite includes_iff_app, !String.eqb_eq. reflexivity.
  - unfold requestTracker_json, requestTracker_enter, trackActiveUser.
    destruct (is_auth_attempt req), (statusCode =? 200),
             (tracked_user req) as [ u | ];
      try destruct (userId_truthy u); simpl; rewrite ?Z.add_0_r;
      repeat split; reflexivity.
Qed.

(** X17. The body that the wrapped [res.json] captured is what the record
    gets: later calls of [res.send] keep a captured truthy body, and replace
    a falsy one (null, false, 0, the empty string) or none at all. *)
Theorem captured_body_survives_send (body : json) (sends : list json)
    (before : option json) :
  (truthy body = true ->
   fold_left (fun captured sent_body => capture_send sent_body captured)
             sends (capture_json body before)
   = Some body)
  /\ (forall next,
        truthy body = false ->
        capture_send next (capture_json body before) = Some next)
  /\ (forall next, capture_send next None = Some next).
Proof.
  split; [ | split ].
  - intros Hb. unfold capture_json.
    induction sends as [ | s sends IH ]; simpl; [ reflexivity | ].
    now rewrite Hb.
  - intros next Hb. simpl. now rewrite Hb.
  - reflexivity.
Qed.

End MiddlewareFacts.

(** ** The exception helper *)

Section ExceptionFacts.

Lemma sanitize_obj_members (fields : list (string * json)) :
  sanitize (JObj fields) = JObj (List.map sanitize_member fields).
Proof.
  change (sanitize (JObj fields)) with (recursiveSanitize (clone (JObj fields))).
  rewrite clone_obj, recursiveSanitize_obj, List.map_map. reflexivity.
Qed.

Lemma sanitize_member_indexed (xs : list json) (i : nat) :
  List.map sanitize_member (indexed i xs)
  = indexed i (List.map (fun x => recursiveSanitize (clone x)) xs).
Proof.
  revert i. induction xs as [ | x xs IH ]; intros i; simpl; [ reflexivity | ].
  unfold sanitize_member at 1. simpl. now rewrite index_key_plain, IH.
Qed.

Lemma chars_fixed (s : string) :
  List.map (fun x => recursiveSanitize (clone x)) (chars s) = chars s.
Proof. induction s as [ | c s IH ]; simpl; congruence. Qed.

(** The own properties of a sanitized value are left as they are by another
    sanitization. *)
Lemma sanitized_props_fixed (v : json) :
  List.map sanitize_member (own_props (sanitize v)) = own_props (sanitize v).
Proof.
  destruct (truthy v) eqn:Hv.
  - pose proof (sanitize_again v) as Hfix.
    assert (Hs : sanitize v = recursiveSanitize (clone v))
      by (unfold sanitize; now rewrite Hv).
    rewrite <- Hs in Hfix.
    destruct (sanitize v) as [ | b | x | t | xs | fields ]; try reflexivity.
    + simpl own_props. rewrite sanitize_member_indexed. now rewrite chars_fixed.
    + simpl own_props. rewrite sanitize_member_indexed.
      change (clone (JArr xs)) with (JArr (List.map clone xs)) in Hfix.
      rewrite recursiveSanitize_arr, List.map_map in Hfix.
      injection Hfix as Hfix. now rewrite Hfix.
    + simpl own_props.
      rewrite clone_obj, recursiveSanitize_obj, List.map_map in Hfix.
      injection Hfix as Hfix. exact Hfix.
  - unfold sanitize. rewrite Hv. simpl.
    destruct v as [ | b | x | t | xs | fields ]; try reflexivity;
      try discriminate Hv.
    destruct t; [ reflexivity | discriminate Hv ].
Qed.

Lemma sanitize_member_obj_set (k : string) (x : json)
    (fields : list (string * json)) :
  List.map sanitize_member (obj_set k x fields)
  = obj_set k (snd (sanitize_member (k, x))) (List.map sanitize_member fields).
Proof.
  induction fields as [ | [k' y] fields IH ]; simpl; [ reflexivity | ].
  destruct (String.eqb k k') eqn:Hk; simpl.
  - apply String.eqb_eq in Hk. now subst k'.
  - now rewrite IH.
Qed.

Lemma sanitize_member_obj_assign (target props : list (string * json)) :
  List.map sanitize_member (obj_assign target props)
  = obj_assign (List.map sanitize_member target)
               (List.map sanitize_member props).
Proof.
  unfold obj_assign. revert target.
  induction props as [ | [k x] props IH ]; intros target; simpl;
    [ reflexivity | ].
  now rewrite IH, sanitize_member_obj_set.
Qed.

Lemma obj_set_keys (k : string) (x : json) (fields : list (string * json)) :
  List.map fst (obj_set k x fields)
  = if existsb (String.eqb k) (List.map fst fields) then List.map fst fields
    else List.map fst fields ++ [k].
Proof.
  induction fields as [ | [k' y] fields IH ]; simpl; [ reflexivity | ].
  destruct (String.eqb k k'); simpl; [ reflexivity | ].
  rewrite IH. now destruct (existsb (String.eqb k) (List.map fst fields)).
Qed.

Lemma obj_assign_NoDup (target props : list (string * json)) :
  List.NoDup (List.map fst target) ->
  List.NoDup (List.map fst (obj_assign target props)).
Proof.
  unfold obj_assign. revert target.
  induction props as [ | [k x] props IH ]; intros target Hnd; simpl;
    [ exact Hnd | ].
  apply IH. rewrite obj_set_keys.
  destruct (existsb (String.eqb k) (List.map fst target)) eqn:Hk;
    [ exact Hnd | ].
  apply List.NoDup_app; [ exact Hnd | repeat constructor; easy | ].
  intros y Hy [ <- | [] ]. apply existsb_eqb_In in Hy. congruence.
Qed.

(** X18. The record of an exception takes the keys of the context at its
    top level, after the error's message and stack: a key of the context
    (its keys being distinct, as an object's are) holds the context's
    sanitized value in the record, even when it is named [errorMessage],
    [errorStack], [level], [type] or [message]; the other keys hold the
    sanitized message and stack and the fixed level, type and message; and
    the record is redacted. *)
Theorem logException_record (errorMessage errorStack : json)
    (context : option json) (now : string) :
  List.NoDup (List.map fst (own_props (default (JObj []) context))) ->
  exists record,
    entry_of (logException errorMessage errorStack context now) = Some record
    /\ prop "timestamp" record = Some (JStr now)
    /\ (forall k,
          k <> "timestamp" ->
          prop k record
          = match assoc k (own_props (sanitize (default (JObj []) context))) with
            | Some x => Some x
            | None =>
                assoc k [("errorMessage",
                          recursiveSanitize (clone errorMessage));
                         ("errorStack", recursiveSanitize (clone errorStack));
                         ("level", JStr "error");
                         ("type", JStr "exception");
                         ("message", JStr "Unhandled exception")]
            end)
    /\ fully_redacted record = true.
Proof.
  intros Hnd. eexists. split; [ reflexivity | ].
  split; [ | split; [ | now apply logEntry_redacted ] ].
  - unfold logEntry. simpl prop. apply assoc_obj_set_eq.
  - intros k Hk. rewrite <- sanitize_keys in Hnd.
    set (P := own_props (sanitize (default (JObj []) context))) in *.
    unfold logEntry. simpl default.
    rewrite sanitize_obj_members, sanitize_member_obj_assign.
    fold P. unfold P at 1. rewrite sanitized_props_fixed. fold P.
    simpl own_props. simpl prop.
    rewrite assoc_obj_set_ne by exact Hk.
    rewrite assoc_obj_assign
      by (apply obj_assign_NoDup; repeat constructor; simpl; intuition discriminate).
    rewrite assoc_obj_assign by exact Hnd.
    destruct (assoc k P); [ reflexivity | ].
    simpl List.map. unfold sanitize_member. simpl fst. simpl snd.
    change (is_sensitive "errorMessage") with false.
    change (is_sensitive "errorStack") with false.
    cbv iota.
    cbn [assoc].
    destruct (String.eqb k "errorMessage"); [ reflexivity | ].
    destruct (String.eqb k "errorStack"); reflexivity.
Qed.

End ExceptionFacts.

(** ** Where the log requests go *)

Section RequestFacts.

Variable JSON_stringify : json -> string.
Variable nanoseconds : option json -> string.
Variable config : Config.


End RequestFacts.

(** ** Worked instances of the properties that have a premise *)


Lemma unconfigured_logger_only_buffers_witness :
  logBuffer (logger (run no_text no_text off_config boot
                         [record_A; Timer; record_B]))
  = logged [record_A; record_B].
Proof.
  destruct (unconfigured_logger_only_buffers no_text no_text off_config
              [record_A; Timer; record_B])
    as (_ & _ & _ & Hbuf); [ reflexivity | exact Hbuf ].
Defined.

Lemma log_flushes_at_capacity_witness :
  (length (logBuffer (logger
     (log no_text no_text sample_config (JStr "info") (JStr "http") (JStr "C")
          None "2024-05-01T10:00:02.000Z"
          (run no_text no_text sample_config boot3 [record_A; record_B]))))
   < 3)%nat.
Proof.
  destruct (log_flushes_at_capacity no_text no_text sample_config
              sample_logging (JStr "info") (JStr "http") (JStr "C") None
              "2024-05-01T10:00:02.000Z"
              (run no_text no_text sample_config boot3 [record_A; record_B]))
    as [_ Hbelow]; [ reflexivity | ].
  apply Hbelow. simpl. lia.
Defined.

Lemma every_held_record_is_redacted_witness :
  Forall (fun record => fully_redacted record = true)
         (holdings (run no_text no_text sample_config boot
                        [record_A; Timer; record_B; Settle 0 backend_down])).
Proof.
  apply (every_held_record_is_redacted no_text no_text sample_config
           [record_A; Timer; record_B; Settle 0 backend_down]).
  reflexivity.
Defined.

Lemma samples_during_an_export_are_dropped_witness :
  serviceLatencies
    (aggregator
       (export_resume
          (perform_all no_text sample_config
             (sendMetricsToGrafana no_text sample_config sample_os start)
             [TrackServiceLatency 0x1p+3%float; IncrementRequests "GET"])))
  = [].
Proof.
  destruct (samples_during_an_export_are_dropped no_text sample_config
              sample_metrics sample_os
              [TrackServiceLatency 0x1p+3%float; IncrementRequests "GET"] start)
    as (_ & _ & _ & Hempty & _); [ reflexivity | reflexivity | exact Hempty ].
Defined.

Lemma unconfigured_exporter_keeps_samples_witness :
  serviceLatencies
    (aggregator
       (perform_all no_text off_config start
          [TrackServiceLatency 0x1p+3%float; Export sample_os; ExportSettled;
           TrackServiceLatency 0x1p+1%float]))
  = [0x1p+3%float; 0x1p+1%float].
Proof.
  destruct (unconfigured_exporter_keeps_samples no_text off_config
              [TrackServiceLatency 0x1p+3%float; Export sample_os;
               ExportSettled; TrackServiceLatency 0x1p+1%float])
    as (_ & Hkept & _); [ reflexivity | exact Hkept ].
Defined.

Lemma logException_record_witness :
  exists record,
    entry_of (logException (JStr "boom") (JStr "at f")
                (Some (JObj [("level", JStr "warn"); ("token", JStr "t")]))
                "2024-05-01T10:00:00.000Z") = Some record
    /\ prop "level" record = Some (JStr "warn")
    /\ prop "token" record = Some (JStr "***REDACTED***").
Proof.
  destruct (logException_record (JStr "boom") (JStr "at f")
              (Some (JObj [("level", JStr "warn"); ("token", JStr "t")]))
              "2024-05-01T10:00:00.000Z")
    as (record & Hentry & _ & Hkeys & _).
  - repeat constructor; simpl; intuition discriminate.
  - exists record. split; [ exact Hentry | ].
    split; [ exact (Hkeys "level" ltac:(discriminate))
           | exact (Hkeys "token" ltac:(discriminate)) ].
Defined.
